(** * A shallow embedding of [priority_queue.py]

    The module defines one class, [PriorityQueue]: a [defaultdict(list)]
    from a priority to the list of the tasks accepted at that priority,
    a logger, and the methods [add_task], [_execute], [clear_queue] and
    [run].  The methods are embedded as computations in a state-and-exception
    monad over a record that holds the dictionary, what the logger received,
    and the operating system the commands run in. *)

From Stdlib Require Import ZArith QArith Lqa.
From stdpp Require Import gmap strings list sorting.

Local Open Scope Z_scope.

(** ** Data *)

(** The three values of a task's ['state'] entry (lines 45-47). *)
Inductive task_state := STATE_WAITING | STATE_ERROR | STATE_SUCCESS.

Global Instance task_state_eq_dec : EqDecision task_state.
Proof. solve_decision. Defined.

(** The dictionary handed to [add_task].  Its two keys are read with
    [task['priority']] and [task['command']]; a key that is absent is [None]
    here, and reading it raises [KeyError].  Priorities are the integers of
    the docstring, commands are strings. *)
Record task_dict := TaskDict {
  task_priority : option Z;
  task_command : option string }.

(** The dictionary [add_task] stores (line 75): the keys ['command'],
    ['state'], ['log'] and ['time_processing'].  ['log'] is [None] until
    the task is executed; timestamps and their differences are rationals
    (every finite float is one), subtraction is exact. *)
Record task_data := TaskData {
  command : string;
  state : task_state;
  log : option string;
  time_processing : Q }.

Definition set_log (v : option string) (data : task_data) : task_data :=
  TaskData (command data) (state data) v (time_processing data).
Definition set_state (v : task_state) (data : task_data) : task_data :=
  TaskData (command data) v (log data) (time_processing data).
Definition set_time_processing (v : Q) (data : task_data) : task_data :=
  TaskData (command data) (state data) (log data) v.

(** What [subprocess.check_output(cmd, shell=True, stderr=STDOUT)] does:
    it returns the combined output, or raises [CalledProcessError] whose
    [output] attribute is what was captured. *)
Inductive completion :=
  | Exit0 (output : string)
  | CalledProcessError (output : string).

(** The messages the module formats, one constructor per f-string. *)
Inductive message :=
  | MsgPriorityRange (p : Z)                       (* line 73 *)
  | MsgMissingKey (task : task_dict)               (* line 79 *)
  | MsgAddTask (p : Z) (c : string)                (* line 77 *)
  | MsgTask (p : Z) (c : string)                   (* line 92 *)
  | MsgOutcome (st : task_state) (elapsed : Q)     (* line 102 *)
  | MsgLogError (out : option string)              (* line 104 *)
  | MsgClear                                       (* line 111 *)
  | MsgStarting                                    (* line 120 *)
  | MsgProcessed (count : nat) (elapsed : Q).      (* line 131 *)

Inductive level := DEBUG | INFO | ERROR.

Record log_record := LogRecord { levelno : level; msg : message }.

(** The exceptions the embedded code can raise. *)
Inductive exn := KeyError | IndexError.

Inductive outcome (A : Type) :=
  | Return (a : A)
  | Raise (e : exn).
Arguments Return {A} a.
Arguments Raise {A} e.

(** Python's list subscript: an index [i] with [0 <= i < len] is position
    [i], an index with [-len <= i < 0] is position [len + i], anything else
    is an [IndexError] ([None] here). *)
Definition norm_index (len : nat) (i : Z) : option nat :=
  if bool_decide (0 ≤ i) then
    if bool_decide (i < Z.of_nat len) then Some (Z.to_nat i) else None
  else
    if bool_decide (- Z.of_nat len ≤ i) then Some (Z.to_nat (Z.of_nat len + i))
    else None.

(** [sorted(items, reverse=True)]: the (priority, bucket) pairs, greatest
    priority first.  The keys of a dictionary are distinct, so the
    comparison never reaches the second component. *)
Definition priority_ge (a b : Z * list task_data) : Prop := b.1 ≤ a.1.

Global Instance priority_ge_dec a b : Decision (priority_ge a b).
Proof. unfold priority_ge. apply _. Defined.

Definition sorted_reverse (q : gmap Z (list task_data))
  : list (Z * list task_data) :=
  merge_sort priority_ge (map_to_list q).

(** [enumerate(commands)] *)
Definition enumerate {A} (l : list A) : list (nat * A) := imap pair l.

(** [all(result)] *)
Definition all (result : list bool) : bool := forallb id result.

Section PriorityQueue.

(** The environment: the process's view of the operating system.  Reading
    the clock and running a command both may change it. *)
Context {world : Type}.
Variable time_time : world → Q * world.
Variable check_output : string → world → completion * world.

(** ** The object *)

(** [_queue] is [self._queue]; [records] is what [self.log] has been sent,
    oldest first; [os] is the environment.  [calls] is a history variable:
    the arguments of every call of [_execute] so far, as the test suite
    observes them through [mock_execute.call_args_list]. *)
Record machine := Machine {
  _queue : gmap Z (list task_data);
  records : list log_record;
  os : world;
  calls : list (Z * Z) }.

Definition set_queue (q : gmap Z (list task_data)) (s : machine) : machine :=
  Machine q (records s) (os s) (calls s).
Definition set_os (w : world) (s : machine) : machine :=
  Machine (_queue s) (records s) w (calls s).

(** ** The monad: state that survives an exception *)

Definition M (A : Type) : Type := machine → outcome A * machine.

Definition ret {A} (a : A) : M A := λ s, (Return a, s).
Definition raise {A} (e : exn) : M A := λ s, (Raise e, s).
Definition bind {A B} (m : M A) (k : A → M B) : M B :=
  λ s, match m s with
       | (Return a, s') => k a s'
       | (Raise e, s') => (Raise e, s')
       end.

(** [try: body  except KeyError: handler] *)
Definition try_except_KeyError {A} (body handler : M A) : M A :=
  λ s, match body s with
       | (Raise KeyError, s') => handler s'
       | r => r
       end.

Global Instance M_ret : MRet M := @ret.
Global Instance M_bind : MBind M := λ A B k m, bind m k.

(** [self.log.debug], [self.log.info], [self.log.error] *)
Definition emit (l : level) (m : message) : M unit :=
  λ s, (Return tt,
        Machine (_queue s) (records s ++ [LogRecord l m]) (os s) (calls s)).

(** [time.time()] *)
Definition time : M Q :=
  λ s, (Return (time_time (os s)).1, set_os (time_time (os s)).2 s).

(** [subprocess.check_output(cmd, shell=True, stderr=subprocess.STDOUT)] *)
Definition subprocess_check_output (cmd : string) : M completion :=
  λ s, (Return (check_output cmd (os s)).1,
        set_os (check_output cmd (os s)).2 s).

(** [d[key]] on a plain dictionary *)
Definition dict_getitem {A} (entry : option A) : M A :=
  match entry with Some v => ret v | None => raise KeyError end.

(** [self._queue[priority]]: the dictionary is a [defaultdict(list)], so
    a missing key is first bound to a new empty list. *)
Definition queue_getitem (priority : Z) : M (list task_data) :=
  λ s, match _queue s !! priority with
       | Some bucket => (Return bucket, s)
       | None => (Return [], set_queue (<[priority := []]> (_queue s)) s)
       end.

(** [bucket[task_index]]: the position and the dictionary found there. *)
Definition list_getitem (bucket : list task_data) (task_index : Z)
  : M (nat * task_data) :=
  match norm_index (length bucket) task_index with
  | Some i =>
      match bucket !! i with
      | Some data => ret (i, data)
      | None => raise IndexError
      end
  | None => raise IndexError
  end.

(** The task stored at position [i] of the bucket of [priority], read
    without touching the dictionary. *)
Definition task_at (s : machine) (priority : Z) (i : nat) : option task_data :=
  _queue s !! priority ≫= λ bucket, bucket !! i.

(** [data[key] = v].  [data] is the dictionary object that sits at position
    [i] of the bucket of [priority] and nowhere else ([add_task] builds a
    new one for every task), so an assignment to it is an update of the
    store at that position.  The updated dictionary is returned for the
    reads that follow. *)
Definition assign (priority : Z) (i : nat) (data : task_data) : M task_data :=
  λ s, (Return data,
        set_queue (alter (λ bucket, <[i := data]> bucket) priority (_queue s)) s).

(** [bucket.append(data)], for the list object [bucket] bound to
    [priority] in the dictionary. *)
Definition list_append (priority : Z) (bucket : list task_data)
    (data : task_data) : M unit :=
  λ s, (Return tt, set_queue (<[priority := bucket ++ [data]]> (_queue s)) s).

(** [self._queue.copy()]: a new dictionary with the same keys, bound to the
    same list objects. *)
Definition queue_copy : M (gmap Z (list task_data)) :=
  λ s, (Return (_queue s), s).

(** [self._queue = defaultdict(list)] *)
Definition queue_reset : M unit :=
  λ s, (Return tt, set_queue ∅ s).

(** The history variable: note a call of [_execute]. *)
Definition note_call (priority task_index : Z) : M unit :=
  λ s, (Return tt,
        Machine (_queue s) (records s) (os s)
                (calls s ++ [(priority, task_index)])).

(** The test of line 127 on the dictionary object at position [index] of
    the bucket of [priority].  In [run] the object is always there: the
    positions come from the copy of the dictionary, and [_execute] changes
    neither the keys nor the lengths of the buckets. *)
Definition is_waiting (priority : Z) (index : nat) : M bool :=
  λ s, (Return (match task_at s priority index with
                | Some command_data =>
                    bool_decide (state command_data = STATE_WAITING)
                | None => false
                end), s).

(** ** The methods *)

(** Lines 64-81. *)
Definition add_task (task : task_dict) : M bool :=
  try_except_KeyError
    (p ← dict_getitem (task_priority task);
     if negb (bool_decide (1 ≤ p) && bool_decide (p ≤ 10)) then
       p' ← dict_getitem (task_priority task);
       emit ERROR (MsgPriorityRange p') ;;
       ret false
     else
       c ← dict_getitem (task_command task);
       let data := TaskData c STATE_WAITING None 0%Q in
       p' ← dict_getitem (task_priority task);
       bucket ← queue_getitem p';
       list_append p' bucket data ;;
       p'' ← dict_getitem (task_priority task);
       emit DEBUG (MsgAddTask p'' (command data)) ;;
       ret true)
    (emit ERROR (MsgMissingKey task) ;;
     ret false).

(** Lines 52-62: the constructor, run in environment [w]. *)
Fixpoint add_tasks (tasks : list task_dict) : M unit :=
  match tasks with
  | [] => ret tt
  | task :: rest => add_task task ;; add_tasks rest
  end.

Definition __init__ (tasks : list task_dict) (w : world) : machine :=
  (add_tasks tasks (Machine ∅ [] w [])).2.

(** Lines 83-106. *)
Definition _execute (priority : Z) (task_index : Z) : M bool :=
  note_call priority task_index ;;
  bucket ← queue_getitem priority;
  '(i, data) ← list_getitem bucket task_index;
  emit DEBUG (MsgTask priority (command data)) ;;
  start ← time;
  r ← subprocess_check_output (command data);
  data ← match r with
         | Exit0 output =>
             data ← assign priority i (set_log (Some output) data);
             assign priority i (set_state STATE_SUCCESS data)
         | CalledProcessError output =>
             data ← assign priority i (set_log (Some output) data);
             assign priority i (set_state STATE_ERROR data)
         end;
  stop ← time;
  data ← assign priority i (set_time_processing (stop - start)%Q data);
  emit DEBUG (MsgOutcome (state data) (time_processing data)) ;;
  if bool_decide (state data = STATE_ERROR) then
    emit DEBUG (MsgLogError (log data)) ;;
    ret false
  else ret true.

(** Lines 108-112. *)
Definition clear_queue : M unit :=
  emit DEBUG MsgClear ;;
  queue_reset.

(** Lines 126-129: the loop over one bucket.  [commands] is the list object
    of the bucket, which the copy of line 122 shares with [self._queue], and
    [command_data] is the dictionary object at position [index] of it: its
    ['state'] is read where it lives, in the store.  [acc] is the pair of the
    local variables [result] and [count]. *)
Fixpoint for_commands (priority : Z) (commands : list (nat * task_data))
    (acc : list bool * nat) : M (list bool * nat) :=
  match commands with
  | [] => ret acc
  | (index, _) :: rest =>
      waiting ← is_waiting priority index;
      acc ← (if waiting : bool then
               ok ← _execute priority (Z.of_nat index);
               ret (acc.1 ++ [ok], S acc.2)
             else ret acc);
      for_commands priority rest acc
  end.

(** Line 125: the loop over the buckets. *)
Fixpoint for_items (items : list (Z * list task_data))
    (acc : list bool * nat) : M (list bool * nat) :=
  match items with
  | [] => ret acc
  | (priority, commands) :: rest =>
      acc ← for_commands priority (enumerate commands) acc;
      for_items rest acc
  end.

(** Lines 114-135. *)
Definition run (auto_clear : bool) : M bool :=
  emit INFO MsgStarting ;;
  start ← time;
  _queue ← queue_copy;
  '(result, count) ← for_items (sorted_reverse _queue) ([], 0%nat);
  stop ← time;
  emit INFO (MsgProcessed count (stop - start)%Q) ;;
  (if auto_clear then clear_queue else ret tt) ;;
  ret (all result).

End PriorityQueue.

(** * Vocabulary of the specification *)

(** The task [add_task] stores for a command. *)
Definition new_task (c : string) : task_data :=
  TaskData c STATE_WAITING None 0%Q.

(** Whether a completion is the successful one. *)
Definition succeeded (r : completion) : bool :=
  match r with Exit0 _ => true | CalledProcessError _ => false end.

Definition captured (r : completion) : string :=
  match r with Exit0 output | CalledProcessError output => output end.

(** A task once its command has completed with [r], the clock having read
    [start] before and [stop] after. *)
Definition executed (d : task_data) (start stop : Q) (r : completion)
  : task_data :=
  TaskData (command d)
           (if succeeded r then STATE_SUCCESS else STATE_ERROR)
           (Some (captured r)) (stop - start)%Q.

(** What [_execute] logs for such a task. *)
Definition execute_records (priority : Z) (d : task_data) (start stop : Q)
    (r : completion) : list log_record :=
  [LogRecord DEBUG (MsgTask priority (command d));
   LogRecord DEBUG (MsgOutcome (state (executed d start stop r))
                               (stop - start)%Q)] ++
  (if succeeded r then []
   else [LogRecord DEBUG (MsgLogError (Some (captured r)))]).

(** A task is addressed by its priority and its position in the bucket. *)
Definition lookup_task (q : gmap Z (list task_data)) (pos : Z * nat)
  : option task_data :=
  q !! pos.1 ≫= λ bucket, bucket !! pos.2.

Definition waiting (q : gmap Z (list task_data)) (pos : Z * nat) : Prop :=
  state <$> lookup_task q pos = Some STATE_WAITING.

Global Instance waiting_dec q pos : Decision (waiting q pos).
Proof. unfold waiting. apply _. Defined.

Definition success_at (q : gmap Z (list task_data)) (pos : Z * nat) : bool :=
  bool_decide (state <$> lookup_task q pos = Some STATE_SUCCESS).

(** The positions of a list of buckets, in the order the two loops of [run]
    reach them, and the arguments [_execute] gets for a position. *)
Definition positions (items : list (Z * list task_data)) : list (Z * nat) :=
  items ≫= λ item, (λ i, (item.1, i)) <$> seq 0 (length item.2).

Definition call_of (pos : Z * nat) : Z * Z := (pos.1, Z.of_nat pos.2).

(** The order of execution the specification asks for: greater priority
    first, and within a priority the smaller position first. *)
Definition before (a b : Z * nat) : Prop :=
  b.1 < a.1 ∨ (a.1 = b.1 ∧ (a.2 < b.2)%nat).

(** What a pass leaves of queue [q] in [q'], for the positions [ps] it went
    through: the buckets keep their lengths, a task that was not reached or
    was not waiting is as it was, and a waiting task that was reached has
    been executed. *)
Definition advanced (ps : list (Z * nat)) (q q' : gmap Z (list task_data))
  : Prop :=
  (∀ p, length <$> q' !! p = length <$> q !! p) ∧
  (∀ pos, pos ∉ ps ∨ ¬ waiting q pos → lookup_task q' pos = lookup_task q pos) ∧
  (∀ pos d, pos ∈ ps → lookup_task q pos = Some d → state d = STATE_WAITING →
     ∃ start stop r,
       lookup_task q' pos = Some (executed d start stop r) ∧
       (success_at q' pos = succeeded r)).

(** The positions [run] executes, in order: the waiting ones. *)
Definition run_order (q : gmap Z (list task_data)) : list (Z * nat) :=
  filter (waiting q) (positions (sorted_reverse q)).

Section Loop.

Context {world : Type}.
Variable time_time : world → Q * world.
Variable check_output : string → world → completion * world.

(** The two loops of [run] as one loop over positions. *)
Fixpoint visit_all (ps : list (Z * nat)) (acc : list bool * nat)
  : M (world := world) (list bool * nat) :=
  match ps with
  | [] => mret acc
  | pos :: rest =>
      waiting ← is_waiting pos.1 pos.2;
      acc ← (if waiting : bool then
               ok ← _execute time_time check_output pos.1 (Z.of_nat pos.2);
               mret (acc.1 ++ [ok], S acc.2)
             else mret acc);
      visit_all rest acc
  end.

(** The public operations, and a client that calls them one after the
    other on one object. *)
Inductive operation :=
  | AddTask (task : task_dict)
  | Run (auto_clear : bool)
  | ClearQueue.

Definition clears (o : operation) : bool :=
  match o with
  | AddTask _ => false
  | Run auto_clear => auto_clear
  | ClearQueue => true
  end.

Definition perform (o : operation) (s : @machine world) : machine :=
  match o with
  | AddTask task => (add_task task s).2
  | Run auto_clear => (run time_time check_output auto_clear s).2
  | ClearQueue => (clear_queue s).2
  end.

Definition perform_all (ops : list operation) (s : @machine world) : machine :=
  foldl (λ s o, perform o s) s ops.

End Loop.

(** [c] occurs exactly once in [l]. *)
Definition once (c : Z * Z) (l : list (Z * Z)) : Prop :=
  ∃ l1 l2, l = l1 ++ (c :: l2) ∧ (c ∉ l1) ∧ (c ∉ l2).

(** ** Vocabulary for the rest of the module *)

Section Sequence.

Context {world : Type}.
Variable time_time : world → Q * world.
Variable check_output : string → world → completion * world.

(** One call of [_execute] for each position of [todo], in the order of the
    list, with the bookkeeping of lines 128-129 around each call. *)
Fixpoint execute_each (todo : list (Z * nat)) (acc : list bool * nat)
  : M (world := world) (list bool * nat) :=
  match todo with
  | [] => mret acc
  | pos :: rest =>
      ok ← _execute time_time check_output pos.1 (Z.of_nat pos.2);
      execute_each rest (acc.1 ++ [ok], S acc.2)
  end.

(** The body of [run] with the two loops and their test of line 127
    replaced by the calls of [_execute] for the positions [todo]. *)
Definition run_calling (todo : list (Z * nat)) (auto_clear : bool)
  : M (world := world) bool :=
  emit INFO MsgStarting ;;
  start ← time time_time;
  '(result, count) ← execute_each todo ([], 0%nat);
  stop ← time time_time;
  emit INFO (MsgProcessed count (stop - start)%Q) ;;
  (if auto_clear then clear_queue else mret tt) ;;
  mret (all result).

End Sequence.

(** What the task dictionary [task] puts into the bucket of [p], if
    anything: lines 72-76 read as a function of the dictionary. *)
Definition accepted_at (p : Z) (task : task_dict) : option task_data :=
  match task_priority task, task_command task with
  | Some p', Some c =>
      if bool_decide (p' = p ∧ 1 ≤ p ≤ 10) then Some (new_task c) else None
  | _, _ => None
  end.

Definition bucket_of (p : Z) (tasks : list task_dict) : list task_data :=
  omap (accepted_at p) tasks.

(** Every bucket of the queue is at a priority from 1 to 10 and holds at
    least one task. *)
Definition buckets_in_range (q : gmap Z (list task_data)) : Prop :=
  ∀ p bucket, q !! p = Some bucket → 1 ≤ p ≤ 10 ∧ bucket ≠ [].

(** A waiting task has no output and no elapsed time yet; a task that is
    not waiting has an output. *)
Definition consistent (d : task_data) : Prop :=
  match state d with
  | STATE_WAITING => log d = None ∧ time_processing d = 0%Q
  | STATE_SUCCESS | STATE_ERROR => is_Some (log d)
  end.

(** ** A stub environment

    The clock counts its readings; the runner is the stub of the
    specification's scenarios: ["emit failure"] fails with output ["boom"],
    every other command succeeds with output ["OK"]. *)
Definition stub_clock (w : nat) : Q * nat := (inject_Z (Z.of_nat w), S w).

Definition stub_runner (c : string) (w : nat) : completion * nat :=
  (if String.eqb c "emit failure" then CalledProcessError "boom"
   else Exit0 "OK", w).

(** A wall clock that is set back between its readings: it reads 5, then
    3, then 1, ...  ([time.time()] is not monotonic.) *)
Definition backward_clock (w : nat) : Q * nat :=
  (inject_Z (5 - 2 * Z.of_nat w), S w).

(** [PriorityQueue()], [PriorityQueue([{"command": c, "priority": 5}])]
    and a queue with three tasks, one of which fails. *)
Definition fresh : @machine nat := __init__ [] 0%nat.

Definition one_task (c : string) : @machine nat :=
  __init__ [TaskDict (Some 5) (Some c)] 0%nat.

Definition three_tasks : @machine nat :=
  __init__ [TaskDict (Some 1) (Some "emit success");
            TaskDict (Some 10) (Some "emit failure");
            TaskDict (Some 1) (Some "dir")] 0%nat.

(** * Verification *)

Section Verification.

Context {world : Type}.
Variable time_time : world → Q * world.
Variable check_output : string → world → completion * world.

Implicit Types (s : @machine world) (q : gmap Z (list task_data)).
Implicit Types (bucket : list task_data) (data d : task_data).

Ltac unfold_monad :=
  unfold mbind, mret, M_bind, M_ret, bind, ret, raise, try_except_KeyError,
    dict_getitem, emit, list_append, queue_getitem, queue_copy, queue_reset,
    note_call, set_queue, set_os in *.

(** ** [add_task] *)

Lemma add_task_accepted s p c :
  1 ≤ p ≤ 10 →
  add_task (TaskDict (Some p) (Some c)) s =
    (Return true,
     Machine (<[p := default [] (_queue s !! p) ++ [new_task c]]> (_queue s))
             (records s ++ [LogRecord DEBUG (MsgAddTask p c)])
             (os s) (calls s)).
Proof.
  intros [Hlo Hhi]. unfold add_task. unfold_monad. simpl.
  rewrite !bool_decide_eq_true_2 by done. simpl.
  destruct (_queue s !! p) as [bucket|] eqn:Hq; simpl; [done|].
  by rewrite insert_insert_eq.
Qed.

Lemma add_task_out_of_range s p oc :
  p < 1 ∨ 10 < p →
  add_task (TaskDict (Some p) oc) s =
    (Return false,
     Machine (_queue s) (records s ++ [LogRecord ERROR (MsgPriorityRange p)])
             (os s) (calls s)).
Proof.
  intros Hp. unfold add_task. unfold_monad. simpl.
  destruct Hp.
  - by rewrite (bool_decide_eq_false_2 (1 ≤ p)) by lia.
  - rewrite (bool_decide_eq_false_2 (p ≤ 10)) by lia.
    by rewrite andb_false_r.
Qed.

Lemma add_task_no_priority s oc :
  add_task (TaskDict None oc) s =
    (Return false,
     Machine (_queue s)
             (records s ++ [LogRecord ERROR (MsgMissingKey (TaskDict None oc))])
             (os s) (calls s)).
Proof. done. Qed.

Lemma add_task_no_command s p :
  1 ≤ p ≤ 10 →
  add_task (TaskDict (Some p) None) s =
    (Return false,
     Machine (_queue s)
             (records s ++
                [LogRecord ERROR (MsgMissingKey (TaskDict (Some p) None))])
             (os s) (calls s)).
Proof.
  intros [Hlo Hhi]. unfold add_task. unfold_monad. simpl.
  by rewrite !bool_decide_eq_true_2 by done.
Qed.

(** ** [_execute] *)

Lemma norm_index_lt len idx i : norm_index len idx = Some i → (i < len)%nat.
Proof.
  unfold norm_index. repeat case_bool_decide; intros; simplify_eq; lia.
Qed.

Lemma norm_index_of_nat len i :
  (i < len)%nat → norm_index len (Z.of_nat i) = Some i.
Proof.
  intros. unfold norm_index.
  rewrite !bool_decide_eq_true_2 by lia. by rewrite Nat2Z.id.
Qed.

Lemma assign_thrice q p bucket i d1 d2 d3 :
  q !! p = Some bucket →
  alter (λ b, <[i := d3]> b) p
    (alter (λ b, <[i := d2]> b) p (alter (λ b, <[i := d1]> b) p q)) =
  <[p := <[i := d3]> bucket]> q.
Proof.
  intros Hq. apply map_eq. intros k.
  destruct (decide (k = p)) as [->|Hne].
  - rewrite !lookup_alter_eq, lookup_insert_eq, Hq. simpl.
    by rewrite !list_insert_insert_eq.
  - by rewrite !lookup_alter_ne, lookup_insert_ne.
Qed.

(** The whole effect of [_execute] on a task that is there. *)
Lemma _execute_found s p idx bucket i d :
  _queue s !! p = Some bucket →
  norm_index (length bucket) idx = Some i →
  bucket !! i = Some d →
  let t0 := time_time (os s) in
  let r := check_output (command d) t0.2 in
  let t1 := time_time r.2 in
  _execute time_time check_output p idx s =
    (Return (succeeded r.1),
     Machine (<[p := <[i := executed d t0.1 t1.1 r.1]> bucket]> (_queue s))
             (records s ++ execute_records p d t0.1 t1.1 r.1)
             t1.2 (calls s ++ [(p, idx)])).
Proof.
  intros Hq Hidx Hd t0 r t1.
  unfold _execute, list_getitem, time, subprocess_check_output, assign.
  unfold_monad. simpl. rewrite Hq. simpl. rewrite Hidx, Hd. simpl.
  fold t0. fold r. fold t1.
  unfold execute_records, executed.
  destruct (r.1) as [out|out] eqn:Hr; simpl;
    rewrite (assign_thrice _ _ bucket) by done;
    by rewrite <- !app_assoc.
Qed.

(** A bucket that is missing is created before the subscript fails. *)
Lemma _execute_no_bucket s p idx :
  _queue s !! p = None →
  _execute time_time check_output p idx s =
    (Raise IndexError,
     Machine (<[p := []]> (_queue s)) (records s) (os s)
             (calls s ++ [(p, idx)])).
Proof.
  intros Hq. unfold _execute, list_getitem. unfold_monad. simpl.
  rewrite Hq. simpl.
  by unfold norm_index; repeat case_bool_decide; try lia.
Qed.

(** ** The loops of [run] *)

Lemma visit_all_app ps1 ps2 acc s :
  visit_all time_time check_output (ps1 ++ ps2) acc s =
  (acc' ← visit_all time_time check_output ps1 acc;
   visit_all time_time check_output ps2 acc') s.
Proof.
  revert acc s. induction ps1 as [|pos ps1 IH]; intros acc s; simpl.
  - done.
  - unfold mbind, M_bind, bind.
    destruct (is_waiting pos.1 pos.2 s) as [[w|e] s1]; [|done].
    destruct w.
    + destruct (_execute _ _ _ _ s1) as [[ok|e] s2]; [|done].
      simpl. apply IH.
    + simpl. apply IH.
Qed.

Lemma for_commands_visit_all p (commands : list (nat * task_data)) acc s :
  for_commands time_time check_output p commands acc s =
  visit_all time_time check_output ((λ c, (p, c.1)) <$> commands) acc s.
Proof.
  revert acc s. induction commands as [|[index d] commands IH];
    intros acc s; simpl; [done|].
  unfold mbind, M_bind, bind.
  destruct (is_waiting p index s) as [[w|e] s1]; [|done].
  destruct w.
  - destruct (_execute _ _ _ _ s1) as [[ok|e] s2]; [|done]. simpl. apply IH.
  - simpl. apply IH.
Qed.

Lemma enumerate_indices {A} (l : list A) (p : Z) :
  (λ c : nat * A, (p, c.1)) <$> enumerate l = (λ i, (p, i)) <$> seq 0 (length l).
Proof.
  unfold enumerate. rewrite fmap_imap.
  rewrite <- (imap_seq_0 l (λ i, (p, i))). done.
Qed.

Lemma for_items_visit_all items acc s :
  for_items time_time check_output items acc s =
  visit_all time_time check_output (positions items) acc s.
Proof.
  revert acc s. induction items as [|[p commands] items IH];
    intros acc s; simpl; [done|].
  unfold positions. simpl. fold (positions items).
  rewrite visit_all_app. unfold mbind, M_bind, bind.
  rewrite for_commands_visit_all, enumerate_indices.
  destruct (visit_all _ _ _ acc s) as [[acc'|e] s1]; [|done].
  apply IH.
Qed.

(** ** One task executed, seen from the queue *)

Section one_update.
Context (q : gmap Z (list task_data)) (p : Z) (bucket : list task_data).
Context (i : nat) (d d' : task_data).
Hypothesis Hq : q !! p = Some bucket.
Hypothesis Hd : bucket !! i = Some d.

Let q' := <[p := <[i := d']> bucket]> q.

Lemma update_shape p0 : length <$> q' !! p0 = length <$> q !! p0.
Proof.
  unfold q'. destruct (decide (p0 = p)) as [->|Hne].
  - rewrite lookup_insert_eq, Hq. simpl. by rewrite length_insert.
  - by rewrite lookup_insert_ne.
Qed.

Lemma update_lookup_eq : lookup_task q' (p, i) = Some d'.
Proof.
  unfold lookup_task, q'. simpl. rewrite lookup_insert_eq. simpl.
  apply list_lookup_insert_eq. by eapply lookup_lt_Some.
Qed.

Lemma update_lookup_ne pos : pos ≠ (p, i) → lookup_task q' pos = lookup_task q pos.
Proof.
  destruct pos as [p0 i0]. intros Hne. unfold lookup_task, q'. simpl.
  destruct (decide (p0 = p)) as [->|Hp].
  - rewrite lookup_insert_eq, Hq. simpl.
    apply list_lookup_insert_ne. congruence.
  - by rewrite lookup_insert_ne.
Qed.
End one_update.

Lemma lookup_task_Some q pos d :
  lookup_task q pos = Some d ↔
  ∃ bucket, q !! pos.1 = Some bucket ∧ bucket !! pos.2 = Some d.
Proof. unfold lookup_task. apply bind_Some. Qed.

Lemma waiting_Some q pos :
  waiting q pos ↔ ∃ d, lookup_task q pos = Some d ∧ state d = STATE_WAITING.
Proof.
  unfold waiting. rewrite fmap_Some.
  split; intros (d & Hd & Hst); eauto.
Qed.

Lemma success_at_executed q pos d start stop r :
  lookup_task q pos = Some (executed d start stop r) →
  success_at q pos = succeeded r.
Proof.
  intros H. unfold success_at. rewrite H. simpl.
  destruct (succeeded r); by apply bool_decide_eq_true_2 || apply bool_decide_eq_false_2.
Qed.

Lemma executed_not_waiting d start stop r :
  state (executed d start stop r) ≠ STATE_WAITING.
Proof. simpl. by destruct (succeeded r). Qed.

Lemma filter_ext_elem_of {A} (P1 P2 : A → Prop)
    `{!∀ x, Decision (P1 x), !∀ x, Decision (P2 x)} (l : list A) :
  (∀ x, x ∈ l → P1 x ↔ P2 x) → filter P1 l = filter P2 l.
Proof.
  induction l as [|a l IH]; intros Hext; [done|].
  rewrite !filter_cons.
  rewrite IH by (intros; apply Hext; by right).
  apply decide_ext. apply Hext. by left.
Qed.

(** ** How a pass advances the queue *)

Lemma advanced_skip pos rest q q' :
  pos ∉ rest → ¬ waiting q pos →
  advanced rest q q' → advanced (pos :: rest) q q'.
Proof.
  intros Hnotin Hnw (Hshape & Hframe & Hexec). split_and!; [done|..].
  - intros pos' [Hn|Hn]; apply Hframe; [|by right].
    left. intros ?. apply Hn. by right.
  - intros pos' d [->|Hin]%elem_of_cons Hl Hst.
    + exfalso. apply Hnw, waiting_Some. eauto.
    + by apply Hexec.
Qed.

Lemma advanced_step p i rest q q' bucket d start stop r :
  (p, i) ∉ rest →
  q !! p = Some bucket → bucket !! i = Some d → state d = STATE_WAITING →
  advanced rest (<[p := <[i := executed d start stop r]> bucket]> q) q' →
  advanced ((p, i) :: rest) q q'.
Proof.
  intros Hnotin Hq Hd Hwait (Hshape & Hframe & Hexec).
  assert (lookup_task q (p, i) = Some d) as Hold
    by (apply lookup_task_Some; eauto).
  set (q1 := <[p := <[i := executed d start stop r]> bucket]> q) in *.
  assert (lookup_task q1 (p, i) = Some (executed d start stop r)) as Heq
    by (by eapply update_lookup_eq).
  assert (∀ pos, pos ≠ (p, i) → lookup_task q1 pos = lookup_task q pos) as Hne
    by (intros; by eapply update_lookup_ne).
  assert (lookup_task q' (p, i) = Some (executed d start stop r)) as Hhere.
  { rewrite Hframe by (by left). done. }
  split_and!.
  - intros p0. rewrite Hshape. by eapply update_shape.
  - intros pos' Hcase.
    destruct (decide (pos' = (p, i))) as [->|Hpos].
    + destruct Hcase as [Hn|Hn].
      * exfalso. apply Hn. by left.
      * exfalso. apply Hn, waiting_Some. eauto.
    + rewrite <- (Hne pos') by done. apply Hframe.
      destruct Hcase as [Hn|Hn].
      * left. intros ?. apply Hn. by right.
      * right. unfold waiting in *. by rewrite Hne.
  - intros pos' d0 [->|Hin]%elem_of_cons Hl Hst.
    + assert (d0 = d) as -> by congruence.
      exists start, stop, r. split; [done|].
      by eapply success_at_executed.
    + apply Hexec; [done| |done].
      rewrite Hne; [done|]. intros ->. done.
Qed.

Lemma advanced_nil q : advanced [] q q.
Proof.
  split_and!; [done|done|]. intros pos d Hin. by apply elem_of_nil in Hin.
Qed.

Lemma is_waiting_eq s p i :
  is_waiting p i s = (Return (bool_decide (waiting (_queue s) (p, i))), s).
Proof.
  unfold is_waiting. f_equal. f_equal.
  destruct (task_at s p i) as [d|] eqn:Hd.
  - apply bool_decide_ext. unfold waiting, lookup_task, task_at in *.
    simpl. rewrite Hd. simpl. split; congruence.
  - symmetry. apply bool_decide_eq_false_2.
    unfold waiting, lookup_task, task_at in *. simpl. by rewrite Hd.
Qed.

(** The loop over a list of distinct positions: it executes the waiting
    ones, in the order of the list, and nothing else. *)
Lemma visit_all_spec ps :
  NoDup ps → ∀ acc s, ∃ s',
    let todo := filter (waiting (_queue s)) ps in
    visit_all time_time check_output ps acc s =
      (Return (acc.1 ++ (success_at (_queue s') <$> todo),
               (acc.2 + length todo)%nat), s') ∧
    calls s' = calls s ++ (call_of <$> todo) ∧
    advanced ps (_queue s) (_queue s') ∧
    (∃ new, records s' = records s ++ new).
Proof.
  induction 1 as [|[p i] rest Hnotin Hnd IH]; intros acc s.
  - exists s. simpl. rewrite !app_nil_r, Nat.add_0_r. destruct acc.
    split_and!; [done|done|apply advanced_nil|by exists []; rewrite app_nil_r].
  - simpl. unfold mbind at 1. unfold M_bind at 1. unfold bind at 1.
    rewrite is_waiting_eq. simpl.
    destruct (decide (waiting (_queue s) (p, i))) as [Hw|Hw].
    + rewrite bool_decide_eq_true_2 by done.
      rewrite filter_cons_True by done.
      pose proof Hw as (d & Hl & Hst)%waiting_Some.
      pose proof Hl as (bucket & Hq & Hd)%lookup_task_Some. simpl in Hq, Hd.
      unfold mbind at 1. unfold M_bind at 1. unfold bind at 1.
      unfold mbind at 1. unfold M_bind at 1. unfold bind at 1.
      rewrite (_execute_found s p (Z.of_nat i) bucket i d Hq
                 (norm_index_of_nat _ _ (lookup_lt_Some _ _ _ Hd)) Hd).
      cbv zeta. simpl.
      set (t0 := time_time (os s)).
      set (r := check_output (command d) t0.2).
      set (t1 := time_time r.2).
      set (s1 := Machine _ _ _ _).
      destruct (IH (acc.1 ++ [succeeded r.1], S acc.2) s1)
        as (s' & Hrun & Hcalls & Hadv & new & Hrec).
      assert (filter (waiting (_queue s1)) rest =
              filter (waiting (_queue s)) rest) as Hfilter.
      { apply filter_ext_elem_of. intros pos Hin. unfold waiting. simpl.
        rewrite (update_lookup_ne (_queue s) p bucket i _ Hq); [done|].
        intros ->. done. }
      rewrite Hfilter in *.
      assert (success_at (_queue s') (p, i) = succeeded r.1) as Hok.
      { destruct Hadv as (_ & Hframe & _).
        eapply success_at_executed.
        rewrite Hframe by (by left). simpl.
        by eapply update_lookup_eq. }
      exists s'. split_and!.
      * simpl in Hrun. rewrite Hrun. simpl. rewrite <- app_assoc, Hok. simpl.
        do 3 f_equal. lia.
      * rewrite Hcalls. simpl. by rewrite <- app_assoc.
      * by eapply (advanced_step p i rest _ _ bucket d t0.1 t1.1 r.1).
      * rewrite Hrec. simpl. rewrite <- app_assoc. eauto.
    + rewrite bool_decide_eq_false_2 by done.
      rewrite filter_cons_False by done.
      unfold mbind at 1. unfold M_bind at 1. unfold bind at 1. simpl.
      destruct (IH acc s) as (s' & Hrun & Hcalls & Hadv & Hrec).
      exists s'. split_and!; [done|done| |done].
      by apply advanced_skip.
Qed.

(** ** The order of the positions *)

Global Instance priority_ge_trans : Transitive priority_ge.
Proof. unfold priority_ge. intros a b c. lia. Qed.

Global Instance priority_ge_total : Total priority_ge.
Proof. unfold priority_ge. intros a b. lia. Qed.

Lemma elem_of_sorted_reverse q p bucket :
  (p, bucket) ∈ sorted_reverse q ↔ q !! p = Some bucket.
Proof.
  unfold sorted_reverse. rewrite merge_sort_Permutation.
  apply elem_of_map_to_list.
Qed.

Lemma NoDup_sorted_reverse_keys q : NoDup (sorted_reverse q).*1.
Proof.
  unfold sorted_reverse. rewrite merge_sort_Permutation.
  apply NoDup_fst_map_to_list.
Qed.

Lemma sorted_reverse_sorted q : StronglySorted priority_ge (sorted_reverse q).
Proof. apply StronglySorted_merge_sort; apply _. Qed.

Lemma elem_of_positions items pos :
  pos ∈ positions items ↔
  ∃ bucket, (pos.1, bucket) ∈ items ∧ (pos.2 < length bucket)%nat.
Proof.
  unfold positions. rewrite list_elem_of_bind. split.
  - intros ([p bucket] & Hin & Hitem). simpl in Hin.
    apply list_elem_of_fmap in Hin as (i & -> & Hi%elem_of_seq).
    exists bucket. simpl. split; [done|lia].
  - intros (bucket & Hin & Hlt). exists (pos.1, bucket). split; [|done].
    simpl. apply list_elem_of_fmap. exists pos.2. split.
    + by destruct pos.
    + apply elem_of_seq. lia.
Qed.

Lemma elem_of_positions_sorted_reverse q pos :
  pos ∈ positions (sorted_reverse q) ↔ is_Some (lookup_task q pos).
Proof.
  rewrite elem_of_positions. split.
  - intros (bucket & Hin%elem_of_sorted_reverse & Hlt).
    apply lookup_lt_is_Some_2 in Hlt as [d Hd].
    exists d. apply lookup_task_Some. eauto.
  - intros [d (bucket & Hq & Hd)%lookup_task_Some].
    exists bucket. split; [by apply elem_of_sorted_reverse|].
    by eapply lookup_lt_Some.
Qed.

Lemma seq_sorted j n : StronglySorted lt (seq j n).
Proof.
  revert j. induction n as [|n IH]; intros j; simpl; constructor; [done|].
  apply Forall_seq. intros. lia.
Qed.

Lemma positions_sorted items :
  StronglySorted priority_ge items → NoDup items.*1 →
  StronglySorted before (positions items).
Proof.
  induction 1 as [|[p bucket] items Hsorted IH Hall]; intros Hnd.
  - constructor.
  - simpl in Hnd. apply NoDup_cons in Hnd as [Hp Hnd].
    unfold positions. rewrite bind_cons. fold (positions items). simpl.
    apply StronglySorted_app. split_and!.
    + intros x1 x2 (i & -> & _)%list_elem_of_fmap
        (b2 & Hin & _)%elem_of_positions.
      left. simpl.
      rewrite Forall_forall in Hall. pose proof (Hall _ Hin) as Hge.
      unfold priority_ge in Hge. simpl in Hge.
      assert (x2.1 ≠ p); [|lia].
      intros <-. apply Hp. apply list_elem_of_fmap.
      by exists (x2.1, b2).
    + eapply StronglySorted_fmap; [|apply (seq_sorted 0 (length bucket))].
      intros x y Hlt. right. simpl. done.
    + by apply IH.
Qed.

Lemma NoDup_positions q : NoDup (positions (sorted_reverse q)).
Proof.
  unfold positions. apply NoDup_bind.
  - intros [p1 b1] [p2 b2] pos Hin1%elem_of_sorted_reverse
      Hin2%elem_of_sorted_reverse
      (i1 & -> & _)%list_elem_of_fmap (i2 & Heq & _)%list_elem_of_fmap.
    simpl in Heq. simplify_eq. done.
  - intros [p b] _. simpl. apply NoDup_fmap_2; [|apply NoDup_seq].
    intros i j ?. by simplify_eq.
  - eapply NoDup_fmap_1. apply NoDup_sorted_reverse_keys.
Qed.

(** ** [run] and [clear_queue] *)

Lemma clear_queue_eq s :
  clear_queue s =
    (Return tt,
     Machine ∅ (records s ++ [LogRecord DEBUG MsgClear]) (os s) (calls s)).
Proof. done. Qed.

(** [run] never raises.  [q1] is the queue when the loops are over. *)
Lemma run_spec s :
  ∃ q1,
    advanced (positions (sorted_reverse (_queue s))) (_queue s) q1 ∧
    ∀ auto_clear,
      let s' := (run time_time check_output auto_clear s).2 in
      (run time_time check_output auto_clear s).1 =
        Return (all (success_at q1 <$> run_order (_queue s))) ∧
      _queue s' = (if auto_clear then ∅ else q1) ∧
      calls s' = calls s ++ (call_of <$> run_order (_queue s)) ∧
      (∃ new, records s' = records s ++ new).
Proof.
  set (s0 := Machine (_queue s) (records s ++ [LogRecord INFO MsgStarting])
                     (time_time (os s)).2 (calls s)).
  destruct (visit_all_spec (positions (sorted_reverse (_queue s)))
              (NoDup_positions _) ([], 0%nat) s0)
    as (s1 & Hrun & Hcalls & Hadv & new & Hrec).
  simpl in Hrun, Hcalls, Hadv, Hrec. fold (run_order (_queue s)) in *.
  exists (_queue s1). split; [done|]. intros auto_clear.
  unfold run, time. unfold_monad. simpl. fold s0.
  rewrite for_items_visit_all, Hrun. simpl.
  destruct auto_clear; simpl.
  - split_and!; [done|done|done|].
    rewrite Hrec, <- !app_assoc. eauto.
  - split_and!; [done|done|done|].
    rewrite Hrec, <- !app_assoc. eauto.
Qed.

(** ** The order of a pass *)

Lemma StronglySorted_filter {A} (R : relation A) (P : A → Prop)
    `{!∀ x, Decision (P x)} (l : list A) :
  StronglySorted R l → StronglySorted R (filter P l).
Proof.
  induction 1 as [|x l Hs IH Hall]; [constructor|].
  rewrite filter_cons. case_decide; [|done].
  constructor; [done|].
  apply Forall_forall. intros y [_ Hy]%list_elem_of_filter.
  rewrite Forall_forall in Hall. by apply Hall.
Qed.

Lemma StronglySorted_lookup_lt {A} (R : relation A) (l : list A) a b x y :
  StronglySorted R l → (a < b)%nat →
  l !! a = Some x → l !! b = Some y → R x y.
Proof.
  intros Hs. revert a b. induction Hs as [|z l Hs IH Hall]; intros a b Hab.
  - by rewrite lookup_nil.
  - destruct b as [|b]; [lia|]. destruct a as [|a]; simpl.
    + intros [= ->] Hy. rewrite Forall_forall in Hall.
      apply Hall. by eapply list_elem_of_lookup_2.
    + apply IH. lia.
Qed.

Lemma elem_of_run_order q pos : pos ∈ run_order q ↔ waiting q pos.
Proof.
  unfold run_order. rewrite list_elem_of_filter.
  rewrite elem_of_positions_sorted_reverse. split; [by intros [? _]|].
  intros Hw. split; [done|].
  apply waiting_Some in Hw as (d & Hd & _). eauto.
Qed.

Lemma NoDup_run_order q : NoDup (run_order q).
Proof. apply NoDup_filter, NoDup_positions. Qed.

Lemma run_order_sorted q : StronglySorted before (run_order q).
Proof.
  apply StronglySorted_filter, positions_sorted.
  - apply sorted_reverse_sorted.
  - apply NoDup_sorted_reverse_keys.
Qed.

Lemma before_irrefl pos : ¬ before pos pos.
Proof. unfold before. lia. Qed.

Lemma before_asym a b : before a b → ¬ before b a.
Proof. unfold before. lia. Qed.

(** In a list sorted by [before], whatever must come first does. *)
Lemma sorted_before_index (l : list (Z * nat)) a b pa pb :
  StronglySorted before l →
  l !! a = Some pa → l !! b = Some pb → before pa pb → (a < b)%nat.
Proof.
  intros Hs Ha Hb Hbefore.
  destruct (lt_eq_lt_dec a b) as [[Hlt|Heq]|Hgt]; [done|..].
  - subst. rewrite Ha in Hb. simplify_eq. by apply before_irrefl in Hbefore.
  - pose proof (StronglySorted_lookup_lt _ _ _ _ _ _ Hs Hgt Hb Ha).
    by apply before_asym in Hbefore.
Qed.

(** What an accepted task does to the positions: those taken stay as they
    are, and the new task goes behind them in its bucket. *)
Lemma add_task_positions s task :
  (add_task task s).1 = Return true →
  ∃ p c,
    task = TaskDict (Some p) (Some c) ∧ 1 ≤ p ≤ 10 ∧
    (∀ pos d, lookup_task (_queue s) pos = Some d →
              lookup_task (_queue (add_task task s).2) pos = Some d) ∧
    lookup_task (_queue (add_task task s).2)
                (p, length (default [] (_queue s !! p))) = Some (new_task c).
Proof.
  destruct task as [[p|] oc].
  - destruct (decide (1 ≤ p ≤ 10)) as [Hp|Hp].
    + destruct oc as [c|].
      * intros _. exists p, c. rewrite add_task_accepted by done. simpl.
        split; [done|]. split; [done|]. split.
        -- intros [p0 i0] d (bucket & Hq & Hd)%lookup_task_Some.
           simpl in Hq, Hd. apply lookup_task_Some. simpl.
           destruct (decide (p0 = p)) as [->|Hne].
           ++ rewrite lookup_insert_eq, Hq. simpl.
              eexists. split; [done|]. by apply lookup_app_l_Some.
           ++ rewrite lookup_insert_ne by done. eauto.
        -- apply lookup_task_Some. simpl. rewrite lookup_insert_eq.
           eexists. split; [done|]. by apply list_lookup_middle.
      * by rewrite add_task_no_command.
    + by rewrite add_task_out_of_range by lia.
  - by rewrite add_task_no_priority.
Qed.

(** The queue of the scenario: tasks accepted at priorities 1, 10 and 1. *)
Lemma scenario_queue (w : world) c1 c2 c3 :
  _queue (__init__ [TaskDict (Some 1) (Some c1); TaskDict (Some 10) (Some c2);
                    TaskDict (Some 1) (Some c3)] w) =
  <[1 := [new_task c1; new_task c3]]> (<[10 := [new_task c2]]> ∅).
Proof. by vm_compute. Qed.

Lemma scenario_run_order c1 c2 c3 :
  run_order (<[1 := [new_task c1; new_task c3]]> (<[10 := [new_task c2]]> ∅))
  = [(10, 0%nat); (1, 0%nat); (1, 1%nat)].
Proof. by vm_compute. Qed.

(** C1. The tasks a pass executes are exactly the waiting ones, each once;
    a task of a greater priority is executed before a task of a smaller
    one, and of two tasks of one bucket the one at the smaller position
    first.  Positions follow the order of adding: an accepted task leaves the tasks
    that are there where they are and goes behind those of its bucket.  In
    particular, tasks accepted at priorities 1, 10 and 1 are executed in the
    order: the one at 10, the first at 1, the second at 1. *)
Theorem run_execution_order :
  (∀ s auto_clear, ∃ todo : list (Z * nat),
     calls (run time_time check_output auto_clear s).2
       = calls s ++ (call_of <$> todo) ∧
     NoDup todo ∧
     (∀ pos, pos ∈ todo ↔
             ∃ d, lookup_task (_queue s) pos = Some d ∧
                  state d = STATE_WAITING) ∧
     (∀ a b pa pb, todo !! a = Some pa → todo !! b = Some pb →
                   pb.1 < pa.1 → (a < b)%nat) ∧
     (∀ a b pa pb, todo !! a = Some pa → todo !! b = Some pb →
                   pa.1 = pb.1 → (pa.2 < pb.2)%nat → (a < b)%nat)) ∧
  (∀ s task,
     (add_task task s).1 = Return true →
     ∃ p c,
       task = TaskDict (Some p) (Some c) ∧
       (∀ pos d, lookup_task (_queue s) pos = Some d →
                 lookup_task (_queue (add_task task s).2) pos = Some d) ∧
       lookup_task (_queue (add_task task s).2)
                   (p, length (default [] (_queue s !! p)))
         = Some (TaskData c STATE_WAITING None 0%Q)) ∧
  (∀ (w : world) c1 c2 c3 auto_clear,
     let s := __init__ [TaskDict (Some 1) (Some c1);
                        TaskDict (Some 10) (Some c2);
                        TaskDict (Some 1) (Some c3)] w in
     (command <$> lookup_task (_queue s) (10, 0%nat) = Some c2 ∧
      command <$> lookup_task (_queue s) (1, 0%nat) = Some c1 ∧
      command <$> lookup_task (_queue s) (1, 1%nat) = Some c3) ∧
     calls (run time_time check_output auto_clear s).2
       = [(10, 0); (1, 0); (1, 1)]).
Proof.
  split_and!.
  - intros s auto_clear.
    destruct (run_spec s) as (q1 & _ & Hrun).
    destruct (Hrun auto_clear) as (_ & _ & Hcalls & _).
    exists (run_order (_queue s)). split_and!.
    + done.
    + apply NoDup_run_order.
    + intros pos. by rewrite elem_of_run_order, waiting_Some.
    + intros a b pa pb Ha Hb Hlt.
      eapply sorted_before_index; [apply run_order_sorted|done|done|].
      by left.
    + intros a b pa pb Ha Hb Heq Hlt.
      eapply sorted_before_index; [apply run_order_sorted|done|done|].
      by right.
  - intros s task Hok.
    destruct (add_task_positions s task Hok) as (p & c & -> & _ & Hold & Hnew).
    exists p, c. done.
  - intros w c1 c2 c3 auto_clear s.
    destruct (run_spec s) as (q1 & _ & Hrun).
    destruct (Hrun auto_clear) as (_ & _ & Hcalls & _).
    rewrite Hcalls. unfold s at 1 2 3 5. rewrite !scenario_queue.
    rewrite scenario_run_order. split; [by vm_compute|done].
Qed.

(** ** The result and the effect of a pass *)

Lemma all_fmap_true {A} (f : A → bool) (l : list A) :
  all (f <$> l) = true ↔ ∀ x, x ∈ l → f x = true.
Proof.
  unfold all. induction l as [|x l IH]; simpl.
  - split; [|done]. intros _ x Hx. by apply elem_of_nil in Hx.
  - rewrite andb_true_iff, IH. unfold id. split.
    + intros [Hx Hl] y [->|Hy]%elem_of_cons; auto.
    + intros Hall. split; [apply Hall; by left|].
      intros y Hy. apply Hall. by right.
Qed.

(** What a whole pass does to one task. *)
Lemma pass_task q q1 pos d :
  advanced (positions (sorted_reverse q)) q q1 →
  lookup_task q pos = Some d →
  (state d ≠ STATE_WAITING → lookup_task q1 pos = Some d) ∧
  (state d = STATE_WAITING →
     ∃ start stop r, lookup_task q1 pos = Some (executed d start stop r) ∧
                     success_at q1 pos = succeeded r).
Proof.
  intros (_ & Hframe & Hexec) Hd. split.
  - intros Hst. rewrite Hframe; [done|]. right.
    intros (d0 & Hd0 & Hw)%waiting_Some. congruence.
  - intros Hst. apply Hexec; [|done|done].
    apply elem_of_positions_sorted_reverse. eauto.
Qed.

Lemma visit_all_idle ps acc s :
  (∀ pos, pos ∈ ps → ¬ waiting (_queue s) pos) →
  visit_all time_time check_output ps acc s = (Return acc, s).
Proof.
  induction ps as [|[p i] ps IH]; intros Hidle; simpl; [done|].
  unfold mbind at 1. unfold M_bind at 1. unfold bind at 1.
  rewrite is_waiting_eq.
  rewrite bool_decide_eq_false_2 by (apply Hidle; by left).
  unfold mbind at 1. unfold M_bind at 1. unfold bind at 1. simpl.
  apply IH. intros pos Hin. apply Hidle. by right.
Qed.

(** A pass over a queue with no waiting task: two readings of the clock,
    two records, and the clearing if it was asked for. *)
Lemma run_idle s auto_clear :
  (∀ pos, ¬ waiting (_queue s) pos) →
  let t0 := time_time (os s) in
  let t1 := time_time t0.2 in
  run time_time check_output auto_clear s =
    (Return true,
     Machine (if auto_clear then ∅ else _queue s)
             (records s ++
                [LogRecord INFO MsgStarting;
                 LogRecord INFO (MsgProcessed 0 (t1.1 - t0.1)%Q)] ++
                (if auto_clear then [LogRecord DEBUG MsgClear] else []))
             t1.2 (calls s)).
Proof.
  intros Hidle t0 t1. unfold run, time. unfold_monad. simpl.
  rewrite for_items_visit_all.
  rewrite visit_all_idle by (intros pos _; apply Hidle). simpl.
  fold t0. fold t1.
  destruct auto_clear; simpl; by rewrite <- ?app_assoc.
Qed.

(** C5. After [run(auto_clear=False)] every bucket has the tasks it had, in
    their places and with their commands; those that were waiting now have
    the state, the output and the elapsed time of their execution, the
    others are untouched, and none is waiting.  A second call of [run] made
    then returns [True] and executes nothing: the history of executions is
    unchanged, the environment has only had its clock read twice, and
    without [auto_clear] the queue is the same. *)
Theorem run_again s :
  let s1 := (run time_time check_output false s).2 in
  (∃ ok, (run time_time check_output false s).1 = Return ok) ∧
  (∀ p, length <$> _queue s1 !! p = length <$> _queue s !! p) ∧
  (∀ pos d, lookup_task (_queue s) pos = Some d →
     ∃ d', lookup_task (_queue s1) pos = Some d' ∧
           command d' = command d ∧
           state d' ≠ STATE_WAITING ∧
           (state d ≠ STATE_WAITING → d' = d) ∧
           (state d = STATE_WAITING →
              ∃ start stop r, d' = executed d start stop r)) ∧
  (∀ auto_clear,
     let s2 := (run time_time check_output auto_clear s1).2 in
     (run time_time check_output auto_clear s1).1 = Return true ∧
     calls s2 = calls s1 ∧
     os s2 = (time_time (time_time (os s1)).2).2 ∧
     (auto_clear = false → _queue s2 = _queue s1)).
Proof.
  intros s1.
  destruct (run_spec s) as (q1 & Hadv & Hrun).
  destruct (Hrun false) as (Hret & Hq1 & _). simpl in Hq1.
  fold s1 in Hq1. subst q1.
  assert (∀ pos d, lookup_task (_queue s) pos = Some d →
     ∃ d', lookup_task (_queue s1) pos = Some d' ∧
           command d' = command d ∧
           state d' ≠ STATE_WAITING ∧
           (state d ≠ STATE_WAITING → d' = d) ∧
           (state d = STATE_WAITING →
              ∃ start stop r, d' = executed d start stop r)) as Htasks.
  { intros pos d Hd.
    destruct (pass_task _ _ _ _ Hadv Hd) as [Hsame Hex].
    destruct (decide (state d = STATE_WAITING)) as [Hst|Hst].
    - destruct (Hex Hst) as (start & stop & r & Hd' & _).
      exists (executed d start stop r).
      split_and!; [done|done|apply executed_not_waiting|done|eauto]. 
    - exists d. split_and!; [auto|done|done|done|done]. }
  assert (∀ pos, ¬ waiting (_queue s1) pos) as Hidle.
  { intros pos (d1 & Hd1 & Hst1)%waiting_Some.
    destruct Hadv as (Hshape & _).
    apply lookup_task_Some in Hd1 as (b1 & Hb1 & Hi1).
    pose proof (Hshape pos.1) as Hlen. rewrite Hb1 in Hlen. simpl in Hlen.
    destruct (_queue s !! pos.1) as [b|] eqn:Hb; [|done].
    simpl in Hlen. injection Hlen as Hlen.
    assert (is_Some (b !! pos.2)) as [d Hd].
    { apply lookup_lt_is_Some. rewrite <- Hlen. by eapply lookup_lt_Some. }
    destruct (Htasks pos d) as (d' & Hd' & _ & Hnw & _).
    { apply lookup_task_Some. eauto. }
    assert (lookup_task (_queue s1) pos = Some d1) as Hd1
      by (apply lookup_task_Some; eauto).
    congruence. }
  split_and!.
  - eauto.
  - by destruct Hadv.
  - done.
  - intros auto_clear s2. unfold s2.
    rewrite (run_idle s1 auto_clear Hidle). simpl.
    split_and!; [done|done|done|]. by intros ->.
Qed.

(** ** The life of a task *)

Lemma add_task_cases s task :
  (∃ p c, 1 ≤ p ≤ 10 ∧ task = TaskDict (Some p) (Some c) ∧
          add_task task s =
            (Return true,
             Machine (<[p := default [] (_queue s !! p) ++ [new_task c]]>
                        (_queue s))
                     (records s ++ [LogRecord DEBUG (MsgAddTask p c)])
                     (os s) (calls s))) ∨
  (∃ m, add_task task s =
          (Return false,
           Machine (_queue s) (records s ++ [LogRecord ERROR m])
                   (os s) (calls s))).
Proof.
  destruct task as [[p|] oc].
  - destruct (decide (1 ≤ p ≤ 10)) as [Hp|Hp].
    + destruct oc as [c|].
      * left. exists p, c. by rewrite add_task_accepted.
      * right. rewrite add_task_no_command by done. eauto.
    + right. rewrite add_task_out_of_range by lia. eauto.
  - right. rewrite add_task_no_priority. eauto.
Qed.

Lemma add_task_keeps s task pos d :
  lookup_task (_queue s) pos = Some d →
  lookup_task (_queue (add_task task s).2) pos = Some d ∧
  calls (add_task task s).2 = calls s.
Proof.
  intros Hd.
  destruct (add_task_cases s task) as [(p & c & Hp & -> & Heq)|(m & Heq)].
  - split; [|by rewrite Heq].
    destruct (add_task_positions s (TaskDict (Some p) (Some c)))
      as (_ & _ & _ & _ & Hold & _); [by rewrite Heq|].
    by apply Hold.
  - by rewrite Heq.
Qed.

Global Instance call_of_inj : Inj (=) (=) call_of.
Proof.
  intros [p1 i1] [p2 i2]. unfold call_of. simpl. intros [= -> Hi].
  f_equal. lia.
Qed.

Lemma once_in_NoDup (c : Z * Z) l : NoDup l → c ∈ l → once c l.
Proof.
  intros Hnd (l1 & l2 & ->)%list_elem_of_split.
  exists l1, l2. split; [done|].
  apply NoDup_app in Hnd as (_ & Hdisj & Hnd2).
  apply NoDup_cons in Hnd2 as [Hc _]. split; [|done].
  intros Hin. apply (Hdisj _ Hin). by left.
Qed.

(** One operation that does not clear the queue, seen from one task. *)
Lemma perform_task o s pos d :
  clears o = false →
  lookup_task (_queue s) pos = Some d →
  ∃ d' new,
    lookup_task (_queue (perform time_time check_output o s)) pos = Some d' ∧
    calls (perform time_time check_output o s) = calls s ++ new ∧
    ((d' = d ∧ call_of pos ∉ new) ∨
     (state d = STATE_WAITING ∧
      (∃ start stop r, d' = executed d start stop r) ∧
      once (call_of pos) new)).
Proof.
  intros Hclears Hd. destruct o as [task|auto_clear|]; simpl in *;
    [|subst auto_clear|done].
  - destruct (add_task_keeps s task pos d Hd) as [Hd' Hcalls].
    exists d, []. rewrite app_nil_r.
    split_and!; [done|done|]. left. split; [done|]. apply not_elem_of_nil.
  - destruct (run_spec s) as (q1 & Hadv & Hrun).
    destruct (Hrun false) as (_ & Hq1 & Hcalls & _). simpl in Hq1.
    rewrite Hq1.
    destruct (pass_task _ _ _ _ Hadv Hd) as [Hsame Hex].
    destruct (decide (state d = STATE_WAITING)) as [Hst|Hst].
    + destruct (Hex Hst) as (start & stop & r & Hd' & _).
      exists (executed d start stop r), (call_of <$> run_order (_queue s)).
      split_and!; [done|done|]. right. split_and!; [done|eauto|].
      apply once_in_NoDup.
      * apply NoDup_fmap_2; [apply _|apply NoDup_run_order].
      * apply list_elem_of_fmap_2, elem_of_run_order, waiting_Some. eauto.
    + exists d, (call_of <$> run_order (_queue s)).
      split_and!; [auto|done|]. left. split; [done|].
      intros (pos' & Heq & Hin)%list_elem_of_fmap.
      apply (inj call_of) in Heq. subst pos'.
      apply elem_of_run_order, waiting_Some in Hin as (d0 & Hd0 & Hst0).
      congruence.
Qed.

Lemma perform_all_cons o ops s :
  perform_all time_time check_output (o :: ops) s =
  perform_all time_time check_output ops (perform time_time check_output o s).
Proof. done. Qed.

(** Any number of operations none of which clears the queue. *)
Lemma perform_all_task ops : ∀ s pos d,
  Forall (λ o, clears o = false) ops →
  lookup_task (_queue s) pos = Some d →
  ∃ d' new,
    lookup_task (_queue (perform_all time_time check_output ops s)) pos
      = Some d' ∧
    calls (perform_all time_time check_output ops s) = calls s ++ new ∧
    ((d' = d ∧ call_of pos ∉ new) ∨
     (state d = STATE_WAITING ∧
      (∃ start stop r, d' = executed d start stop r) ∧
      once (call_of pos) new)).
Proof.
  induction ops as [|o ops IH]; intros s pos d Hops Hd.
  - exists d, []. simpl. rewrite app_nil_r.
    split_and!; [done|done|]. left. split; [done|]. apply not_elem_of_nil.
  - apply Forall_cons in Hops as [Ho Hops]. rewrite perform_all_cons.
    destruct (perform_task o s pos d Ho Hd) as (d1 & new1 & Hd1 & Hc1 & Hcase1).
    destruct (IH _ pos d1 Hops Hd1) as (d' & new2 & Hd' & Hc2 & Hcase2).
    exists d', (new1 ++ new2). split; [done|].
    split; [by rewrite Hc2, Hc1, app_assoc|].
    destruct Hcase1 as [[-> Hn1]|(Hst & (start & stop & r & ->) & Honce)].
    + destruct Hcase2 as [[-> Hn2]|(Hst & Hex & (l1 & l2 & -> & Hl1 & Hl2))].
      * left. split; [done|]. rewrite elem_of_app. tauto.
      * right. split_and!; [done|done|].
        exists (new1 ++ l1), l2. rewrite <- app_assoc.
        split_and!; [done| |done]. rewrite elem_of_app. tauto.
    + destruct Hcase2 as [[-> Hn2]|(Hst2 & _)].
      * right. split_and!; [done|eauto|].
        destruct Honce as (l1 & l2 & -> & Hl1 & Hl2).
        exists l1, (l2 ++ new2). rewrite <- app_assoc. simpl.
        split_and!; [done|done|]. rewrite elem_of_app. tauto.
      * by apply executed_not_waiting in Hst2.
Qed.

(** C9. A task is waiting when it is accepted.  Through any sequence of
    [add_task] and [run] calls that leave the queue in place, the task stays
    at its position with its command, and either it is as it was and has not
    been executed, or it was waiting, has been executed exactly once, and
    has the state (SUCCESS or ERROR), the output and the elapsed time of that
    execution; a task that is not waiting is never executed and never
    changed.  A clearing ([clear_queue], or [run] with [auto_clear]) ends
    every task: the queue is empty after it. *)
Theorem task_lifecycle :
  (∀ s task,
     (add_task task s).1 = Return true →
     ∃ p c, task = TaskDict (Some p) (Some c) ∧
            lookup_task (_queue (add_task task s).2)
                        (p, length (default [] (_queue s !! p)))
              = Some (TaskData c STATE_WAITING None 0%Q)) ∧
  (∀ ops s pos d,
     Forall (λ o, clears o = false) ops →
     lookup_task (_queue s) pos = Some d →
     ∃ d' new,
       lookup_task (_queue (perform_all time_time check_output ops s)) pos
         = Some d' ∧
       command d' = command d ∧
       calls (perform_all time_time check_output ops s) = calls s ++ new ∧
       ((d' = d ∧ call_of pos ∉ new) ∨
        (state d = STATE_WAITING ∧
         (state d' = STATE_SUCCESS ∨ state d' = STATE_ERROR) ∧
         (∃ start stop r, d' = executed d start stop r) ∧
         once (call_of pos) new)) ∧
       (state d ≠ STATE_WAITING → d' = d ∧ call_of pos ∉ new)) ∧
  (∀ o s, clears o = true →
          _queue (perform time_time check_output o s) = ∅).
Proof.
  split_and!.
  - intros s task Hok.
    destruct (add_task_positions s task Hok) as (p & c & -> & _ & _ & Hnew).
    by exists p, c.
  - intros ops s pos d Hops Hd.
    destruct (perform_all_task ops s pos d Hops Hd)
      as (d' & new & Hd' & Hcalls & Hcase).
    exists d', new. split_and!; [done| |done| |].
    + destruct Hcase as [[-> _]|(_ & (start & stop & r & ->) & _)]; done.
    + destruct Hcase as [?|(Hst & (start & stop & r & ->) & Honce)];
        [by left|right].
      split_and!; [done| |eauto|done].
      simpl. destruct (succeeded r); auto.
    + intros Hst. destruct Hcase as [?|(? & _)]; done.
  - intros [task|[]|] s Hclears; simpl in *; try done.
    destruct (run_spec s) as (q1 & _ & Hrun).
    by destruct (Hrun true) as (_ & Hq & _).
Qed.

(** ** The claims about [add_task], [_execute] and [clear_queue] *)

(** C3. A priority from 1 to 10, with a command, is accepted: [add_task]
    returns [True] and the bucket of the priority (the empty one if there was
    none) gets one more task at its end, waiting, with no output and no
    elapsed time.  A priority below 1 or above 10 is refused: [add_task]
    returns [False], and the queue, the environment and the history of
    executions are what they were. *)
Theorem add_task_priority_range s p c :
  (1 ≤ p ≤ 10 →
     (add_task (TaskDict (Some p) (Some c)) s).1 = Return true ∧
     _queue (add_task (TaskDict (Some p) (Some c)) s).2 =
       <[p := default [] (_queue s !! p) ++
                [TaskData c STATE_WAITING None 0%Q]]> (_queue s)) ∧
  (p < 1 ∨ 10 < p →
     ∀ oc, (add_task (TaskDict (Some p) oc) s).1 = Return false ∧
           _queue (add_task (TaskDict (Some p) oc) s).2 = _queue s ∧
           os (add_task (TaskDict (Some p) oc) s).2 = os s ∧
           calls (add_task (TaskDict (Some p) oc) s).2 = calls s).
Proof.
  split.
  - intros Hp. by rewrite add_task_accepted.
  - intros Hp oc. by rewrite add_task_out_of_range.
Qed.

(** C6, as amended. [add_task] does not look into the command: with a
    priority from 1 to 10 the empty command is accepted like any other.
    [add_task] returns [False] exactly when a key is absent or the priority
    is outside 1..10, and then the queue is unchanged. *)
Theorem add_task_empty_command s :
  (∀ p, 1 ≤ p ≤ 10 →
     (add_task (TaskDict (Some p) (Some "")) s).1 = Return true ∧
     _queue (add_task (TaskDict (Some p) (Some "")) s).2 =
       <[p := default [] (_queue s !! p) ++
                [TaskData "" STATE_WAITING None 0%Q]]> (_queue s)) ∧
  (∀ task,
     (add_task task s).1 = Return false ↔
     task_command task = None ∨ task_priority task = None ∨
     ∃ p, task_priority task = Some p ∧ (p < 1 ∨ 10 < p)) ∧
  (∀ task,
     (add_task task s).1 = Return false →
     _queue (add_task task s).2 = _queue s).
Proof.
  split_and!.
  - intros p Hp. by rewrite add_task_accepted.
  - intros [[p|] oc].
    + destruct (decide (1 ≤ p ≤ 10)) as [Hp|Hp].
      * destruct oc as [c|].
        -- rewrite add_task_accepted by done. simpl. split; [done|].
           intros [?|[?|(p' & ? & ?)]]; simplify_eq; lia.
        -- rewrite add_task_no_command by done. simpl. split; [|done].
           intros _. by left.
      * rewrite add_task_out_of_range by lia. simpl. split; [|done].
        intros _. right. right. exists p. split; [done|lia].
    + rewrite add_task_no_priority. simpl. split; [|done].
      intros _. right. by left.
  - intros [[p|] oc].
    + destruct (decide (1 ≤ p ≤ 10)) as [Hp|Hp].
      * destruct oc as [c|].
        -- by rewrite add_task_accepted.
        -- by rewrite add_task_no_command.
      * by rewrite add_task_out_of_range by lia.
    + by rewrite add_task_no_priority.
Qed.

(** C7. A dictionary without ['command'] or without ['priority'] is
    refused: [add_task] returns [False] (it does not raise), one record of
    level ERROR is logged, and the queue is what it was, with no bucket
    made and no task appended. *)
Theorem add_task_missing_key s task :
  task_command task = None ∨ task_priority task = None →
  (add_task task s).1 = Return false ∧
  _queue (add_task task s).2 = _queue s ∧
  (∃ m, records (add_task task s).2 = records s ++ [LogRecord ERROR m]) ∧
  os (add_task task s).2 = os s ∧
  calls (add_task task s).2 = calls s.
Proof.
  destruct task as [[p|] oc]; intros Hmissing; simpl in Hmissing.
  - destruct Hmissing as [->|?]; [|done].
    destruct (decide (1 ≤ p ≤ 10)) as [Hp|Hp].
    + rewrite add_task_no_command by done. simpl. eauto 10.
    + rewrite add_task_out_of_range by lia. simpl. eauto 10.
  - rewrite add_task_no_priority. simpl. eauto 10.
Qed.

(** C4, as amended. For a task that is at the given priority and index,
    [_execute] returns [True] and leaves the task in state SUCCESS with the
    output the runner returned when the runner succeeds, and returns [False]
    (it does not raise) and leaves the task in state ERROR with the output
    the runner collected when the runner fails.  Either way the elapsed time
    recorded is the reading of [time.time()] after the call minus the
    reading before it: it is not negative exactly when the second reading is
    not below the first, that is, when the clock was not set back during the
    call, and it is negative otherwise. *)
Theorem _execute_outcome s p idx bucket i d :
  _queue s !! p = Some bucket →
  norm_index (length bucket) idx = Some i →
  bucket !! i = Some d →
  let t0 := time_time (os s) in
  let r := check_output (command d) t0.2 in
  let t1 := time_time r.2 in
  ∃ d',
    lookup_task (_queue (_execute time_time check_output p idx s).2) (p, i)
      = Some d' ∧
    command d' = command d ∧
    time_processing d' = (t1.1 - t0.1)%Q ∧
    ((t0.1 <= t1.1)%Q → (0 <= time_processing d')%Q) ∧
    ((0 <= time_processing d')%Q → (t0.1 <= t1.1)%Q) ∧
    match r.1 with
    | Exit0 output =>
        (_execute time_time check_output p idx s).1 = Return true ∧
        state d' = STATE_SUCCESS ∧ log d' = Some output
    | CalledProcessError output =>
        (_execute time_time check_output p idx s).1 = Return false ∧
        state d' = STATE_ERROR ∧ log d' = Some output
    end.
Proof.
  intros Hq Hidx Hd t0 r t1.
  rewrite (_execute_found s p idx bucket i d Hq Hidx Hd).
  cbv zeta. fold t0. fold r. fold t1. simpl.
  exists (executed d t0.1 t1.1 r.1). split_and!.
  - by eapply update_lookup_eq.
  - done.
  - done.
  - simpl. lra.
  - simpl. lra.
  - by destruct (r.1).
Qed.

(** C8. After [run(auto_clear=True)] the queue is empty: no bucket, no
    task.  [clear_queue] returns and leaves the empty queue whatever the
    queue was: never run, already run, or already empty. *)
Theorem run_auto_clear_empties s :
  (∃ ok, (run time_time check_output true s).1 = Return ok) ∧
  _queue (run time_time check_output true s).2 = ∅ ∧
  size (_queue (run time_time check_output true s).2) = 0%nat ∧
  (∀ pos, lookup_task (_queue (run time_time check_output true s).2) pos
          = None) ∧
  (clear_queue s).1 = Return tt ∧
  _queue (clear_queue s).2 = ∅ ∧
  size (_queue (clear_queue s).2) = 0%nat ∧
  (∀ pos, lookup_task (_queue (clear_queue s).2) pos = None).
Proof.
  destruct (run_spec s) as (q1 & _ & Hrun).
  destruct (Hrun true) as (Hret & Hq & _). simpl in Hq.
  rewrite Hq, clear_queue_eq. simpl.
  split_and!; eauto using map_size_empty.
Qed.

(** C10. For a priority that has no bucket, [_execute] raises
    [IndexError], and the queue is not what it was: the lookup has bound the
    priority to a new empty bucket. *)
Theorem _execute_missing_bucket s p idx :
  _queue s !! p = None →
  (_execute time_time check_output p idx s).1 = Raise IndexError ∧
  _queue (_execute time_time check_output p idx s).2
    = <[p := []]> (_queue s) ∧
  _queue (_execute time_time check_output p idx s).2 !! p = Some [] ∧
  _queue (_execute time_time check_output p idx s).2 ≠ _queue s.
Proof.
  intros Hq. rewrite _execute_no_bucket by done. simpl.
  split_and!; [done|done|apply lookup_insert_eq|].
  intros Heq. apply (f_equal (.!! p)) in Heq.
  rewrite lookup_insert_eq, Hq in Heq. done.
Qed.

(** * More of the module *)

(** ** [run] as a sequence of [_execute] calls *)

Lemma visit_all_execute_each ps :
  NoDup ps → ∀ acc s,
    visit_all time_time check_output ps acc s =
    execute_each time_time check_output
      (filter (waiting (_queue s)) ps) acc s.
Proof.
  induction 1 as [|[p i] rest Hnotin Hnd IH]; intros acc s; [done|].
  simpl. unfold mbind at 1. unfold M_bind at 1. unfold bind at 1.
  rewrite is_waiting_eq. simpl.
  destruct (decide (waiting (_queue s) (p, i))) as [Hw|Hw].
  - rewrite bool_decide_eq_true_2 by done.
    rewrite filter_cons_True by done.
    pose proof Hw as (d & Hl & Hst)%waiting_Some.
    pose proof Hl as (bucket & Hq & Hd)%lookup_task_Some. simpl in Hq, Hd.
    simpl. unfold mbind, M_bind, bind, mret, M_ret, ret.
    rewrite (_execute_found s p (Z.of_nat i) bucket i d Hq
               (norm_index_of_nat _ _ (lookup_lt_Some _ _ _ Hd)) Hd).
    cbv zeta. rewrite IH. simpl. f_equal.
    apply filter_ext_elem_of. intros pos Hin. unfold waiting.
    rewrite (update_lookup_ne (_queue s) p bucket i _ Hq); [done|].
    intros ->. done.
  - rewrite bool_decide_eq_false_2 by done.
    rewrite filter_cons_False by done.
    unfold mbind at 1. unfold M_bind at 1. unfold bind at 1. simpl.
    apply IH.
Qed.

(** [run], once what its loops do is known. *)
Lemma run_unfold s auto_clear result count s1 :
  visit_all time_time check_output (positions (sorted_reverse (_queue s)))
    ([], 0%nat)
    (Machine (_queue s) (records s ++ [LogRecord INFO MsgStarting])
             (time_time (os s)).2 (calls s))
    = (Return (result, count), s1) →
  (run time_time check_output auto_clear s).1 = Return (all result) ∧
  _queue (run time_time check_output auto_clear s).2
    = (if auto_clear then ∅ else _queue s1) ∧
  calls (run time_time check_output auto_clear s).2 = calls s1.
Proof.
  intros Hloops. unfold run, time. unfold_monad. simpl.
  rewrite for_items_visit_all, Hloops. simpl.
  by destruct auto_clear.
Qed.

Lemma all_true (results : list bool) :
  all results = true ↔ ∀ ok, ok ∈ results → ok = true.
Proof.
  rewrite <- (list_fmap_id results) at 1. apply all_fmap_true.
Qed.

(** C2. [run] executes every task that is waiting when the pass begins:
    from the object as it is when the loops start, it makes one call of
    [_execute] for each of them and none for any other task, and what it
    returns is the conjunction of what these calls return.  Each call
    returns whether the runner succeeded on its task, so [run] returns
    [True] if and only if every task that was waiting succeeded.  A pass
    with nothing waiting returns [True]; the tasks that were not waiting
    take no part in the result and are left as they were. *)
Theorem run_result s auto_clear :
  let s0 := Machine (_queue s) (records s ++ [LogRecord INFO MsgStarting])
                    (time_time (os s)).2 (calls s) in
  let todo := run_order (_queue s) in
  let q1 := _queue (run time_time check_output false s).2 in
  ∃ results s1,
    (∀ pos, pos ∈ todo ↔
            ∃ d, lookup_task (_queue s) pos = Some d ∧
                 state d = STATE_WAITING) ∧
    NoDup todo ∧
    execute_each time_time check_output todo ([], 0%nat) s0
      = (Return (results, length todo), s1) ∧
    _queue s1 = q1 ∧
    calls (run time_time check_output auto_clear s).2
      = calls s ++ (call_of <$> todo) ∧
    (run time_time check_output auto_clear s).1 = Return (all results) ∧
    (all results = true ↔ ∀ ok, ok ∈ results → ok = true) ∧
    (∀ k pos, todo !! k = Some pos →
       ∃ d start stop r,
         lookup_task (_queue s) pos = Some d ∧
         lookup_task q1 pos = Some (executed d start stop r) ∧
         results !! k = Some (succeeded r)) ∧
    (all results = true ↔
       ∀ pos d, lookup_task (_queue s) pos = Some d →
                state d = STATE_WAITING →
                ∃ start stop r,
                  lookup_task q1 pos = Some (executed d start stop r) ∧
                  succeeded r = true) ∧
    ((∀ pos d, lookup_task (_queue s) pos = Some d →
               state d ≠ STATE_WAITING) → all results = true) ∧
    (∀ pos d, lookup_task (_queue s) pos = Some d →
              state d ≠ STATE_WAITING → lookup_task q1 pos = Some d).
Proof.
  intros s0 todo q1.
  destruct (visit_all_spec (positions (sorted_reverse (_queue s)))
              (NoDup_positions _) ([], 0%nat) s0)
    as (s1 & Hloops & Hcalls & Hadv & _).
  simpl in Hloops, Hcalls, Hadv. fold (run_order (_queue s)) in *.
  fold todo in Hloops, Hcalls.
  destruct (run_unfold s false _ _ _ Hloops) as (_ & Hq1 & _).
  simpl in Hq1. fold q1 in Hq1.
  destruct (run_unfold s auto_clear _ _ _ Hloops) as (Hret & _ & Hcalls').
  rewrite <- Hq1 in *.
  assert (all (success_at q1 <$> todo) = true ↔
          ∀ pos d, lookup_task (_queue s) pos = Some d →
                   state d = STATE_WAITING →
                   ∃ start stop r,
                     lookup_task q1 pos = Some (executed d start stop r) ∧
                     succeeded r = true) as Hiff.
  { rewrite all_fmap_true. split.
    - intros Hall pos d Hd Hst.
      destruct (pass_task _ _ _ _ Hadv Hd) as [_ Hex].
      destruct (Hex Hst) as (start & stop & r & Hd' & Hsucc).
      exists start, stop, r. split; [done|].
      rewrite <- Hsucc. apply Hall, elem_of_run_order, waiting_Some. eauto.
    - intros Hall pos (d & Hd & Hst)%elem_of_run_order%waiting_Some.
      destruct (Hall pos d Hd Hst) as (start & stop & r & Hd' & Hsucc).
      by rewrite (success_at_executed _ _ _ _ _ _ Hd'). }
  exists (success_at q1 <$> todo), s1. split_and!.
  - intros pos. unfold todo. by rewrite elem_of_run_order, waiting_Some.
  - apply NoDup_run_order.
  - rewrite <- Hloops.
    by rewrite visit_all_execute_each by apply NoDup_positions.
  - done.
  - by rewrite Hcalls', Hcalls.
  - done.
  - apply all_true.
  - intros k pos Hk.
    assert (pos ∈ todo) as Hin by (by eapply list_elem_of_lookup_2).
    apply elem_of_run_order, waiting_Some in Hin as (d & Hd & Hst).
    destruct (pass_task _ _ _ _ Hadv Hd) as [_ Hex].
    destruct (Hex Hst) as (start & stop & r & Hd' & Hsucc).
    exists d, start, stop, r. split_and!; [done|done|].
    by rewrite list_lookup_fmap, Hk, <- Hsucc.
  - done.
  - intros Hnone. apply Hiff. intros pos d Hd Hst.
    by destruct (Hnone pos d Hd).
  - intros pos d Hd Hst.
    by destruct (pass_task _ _ _ _ Hadv Hd) as [Hsame _]; auto.
Qed.

(** X1. [run] is its own straight-line version: it does to the queue, the
    log and the environment exactly what one call of [_execute] for each
    task that is waiting when it starts does, made in the order greatest
    priority first and smaller position first, between the same two clock
    readings and log records, and it returns the same value. *)
Theorem run_is_sequence s auto_clear :
  run time_time check_output auto_clear s =
  run_calling time_time check_output (run_order (_queue s)) auto_clear s.
Proof.
  unfold run, run_calling, time. unfold_monad. simpl.
  rewrite for_items_visit_all.
  by rewrite visit_all_execute_each by apply NoDup_positions.
Qed.

(** ** What [run] logs *)

Lemma execute_records_debug p d start stop r :
  Forall (λ rec, levelno rec = DEBUG) (execute_records p d start stop r).
Proof.
  unfold execute_records. destruct (succeeded r); repeat constructor.
Qed.

Lemma visit_all_records ps : ∀ acc s,
  ∃ new,
    records (visit_all time_time check_output ps acc s).2 = records s ++ new ∧
    Forall (λ rec, levelno rec = DEBUG) new.
Proof.
  induction ps as [|[p i] rest IH]; intros acc s.
  - exists []. simpl. by rewrite app_nil_r.
  - simpl. unfold mbind at 1. unfold M_bind at 1. unfold bind at 1.
    rewrite is_waiting_eq. simpl.
    destruct (decide (waiting (_queue s) (p, i))) as [Hw|Hw].
    + rewrite bool_decide_eq_true_2 by done.
      pose proof Hw as (d & Hl & Hst)%waiting_Some.
      pose proof Hl as (bucket & Hq & Hd)%lookup_task_Some. simpl in Hq, Hd.
      unfold mbind, M_bind, bind, mret, M_ret, ret.
      rewrite (_execute_found s p (Z.of_nat i) bucket i d Hq
                 (norm_index_of_nat _ _ (lookup_lt_Some _ _ _ Hd)) Hd).
      cbv zeta.
      match goal with
      | |- context [visit_all _ _ rest ?acc1 ?s1] =>
          destruct (IH acc1 s1) as (new & Hrec & Hall)
      end.
      rewrite Hrec. simpl. rewrite <- app_assoc.
      eexists. split; [done|].
      apply Forall_app. split; [apply execute_records_debug|done].
    + rewrite bool_decide_eq_false_2 by done.
      unfold mbind at 1. unfold M_bind at 1. unfold bind at 1. simpl.
      apply IH.
Qed.

(** X2. What [run] adds to the log: the INFO record of line 120 first, then
    only DEBUG records (those of [_execute]), then the INFO record of line
    131, whose count is the number of [_execute] calls the pass made, and
    last the DEBUG record of [clear_queue] if [auto_clear] is set. *)
Theorem run_log s auto_clear :
  ∃ todo new elapsed,
    calls (run time_time check_output auto_clear s).2
      = calls s ++ (call_of <$> todo) ∧
    records (run time_time check_output auto_clear s).2
      = records s ++ [LogRecord INFO MsgStarting] ++ new ++
        [LogRecord INFO (MsgProcessed (length todo) elapsed)] ++
        (if auto_clear then [LogRecord DEBUG MsgClear] else []) ∧
    Forall (λ rec, levelno rec = DEBUG) new.
Proof.
  set (s0 := Machine (_queue s) (records s ++ [LogRecord INFO MsgStarting])
                     (time_time (os s)).2 (calls s)).
  destruct (visit_all_spec (positions (sorted_reverse (_queue s)))
              (NoDup_positions _) ([], 0%nat) s0)
    as (s1 & Hrun & Hcalls & _ & _).
  destruct (visit_all_records (positions (sorted_reverse (_queue s)))
              ([], 0%nat) s0) as (new & Hrec & Hall).
  simpl in Hrun, Hcalls, Hrec. rewrite Hrun in Hrec. simpl in Hrec.
  fold (run_order (_queue s)) in *.
  exists (run_order (_queue s)), new. eexists.
  unfold run, time. unfold_monad. simpl. fold s0.
  rewrite for_items_visit_all, Hrun. simpl.
  destruct auto_clear; simpl; rewrite Hrec, Hcalls;
    (split; [done|]); (split; [|done]);
    by rewrite <- !app_assoc.
Qed.

(** X3. [auto_clear] changes nothing but the end: [run(True)] returns what
    [run(False)] returns, makes the same calls of [_execute], leaves the
    environment in the same state, and logs the same records followed by
    the one of [clear_queue]; only the queue differs, being empty. *)
Theorem run_auto_clear_only_clears s :
  (run time_time check_output true s).1
    = (run time_time check_output false s).1 ∧
  calls (run time_time check_output true s).2
    = calls (run time_time check_output false s).2 ∧
  os (run time_time check_output true s).2
    = os (run time_time check_output false s).2 ∧
  records (run time_time check_output true s).2
    = records (run time_time check_output false s).2 ++
      [LogRecord DEBUG MsgClear] ∧
  _queue (run time_time check_output true s).2 = ∅.
Proof.
  set (s0 := Machine (_queue s) (records s ++ [LogRecord INFO MsgStarting])
                     (time_time (os s)).2 (calls s)).
  destruct (visit_all_spec (positions (sorted_reverse (_queue s)))
              (NoDup_positions _) ([], 0%nat) s0)
    as (s1 & Hrun & _).
  simpl in Hrun.
  unfold run, time. unfold_monad. simpl. fold s0.
  rewrite for_items_visit_all, Hrun. simpl. done.
Qed.

(** X4. A pass over a queue in which no task is waiting (an empty queue
    among them) returns [True], calls [_execute] for nothing and runs no
    command: the environment has only had its clock read twice, the log
    gets the two INFO records with a count of 0, and the queue is left as it
    is unless [auto_clear] empties it. *)
Theorem run_nothing_waiting s auto_clear :
  (∀ pos d, lookup_task (_queue s) pos = Some d → state d ≠ STATE_WAITING) →
  let t0 := time_time (os s) in
  let t1 := time_time t0.2 in
  run time_time check_output auto_clear s =
    (Return true,
     Machine (if auto_clear then ∅ else _queue s)
             (records s ++
                [LogRecord INFO MsgStarting;
                 LogRecord INFO (MsgProcessed 0 (t1.1 - t0.1)%Q)] ++
                (if auto_clear then [LogRecord DEBUG MsgClear] else []))
             t1.2 (calls s)).
Proof.
  intros Hnone. apply run_idle.
  intros pos (d & Hd & Hst)%waiting_Some. by apply (Hnone pos d).
Qed.

(** ** [_execute] at the edges *)

(** X5. [_execute] touches one task only: the dictionary keeps its keys and
    every bucket its length, and every task other than the one addressed is
    what it was.  The call itself is noted in the history. *)
Theorem _execute_frame s p idx bucket i d :
  _queue s !! p = Some bucket →
  norm_index (length bucket) idx = Some i →
  bucket !! i = Some d →
  let s' := (_execute time_time check_output p idx s).2 in
  (∀ p0, length <$> _queue s' !! p0 = length <$> _queue s !! p0) ∧
  (∀ pos, pos ≠ (p, i) →
          lookup_task (_queue s') pos = lookup_task (_queue s) pos) ∧
  calls s' = calls s ++ [(p, idx)].
Proof.
  intros Hq Hidx Hd s'. unfold s'.
  rewrite (_execute_found s p idx bucket i d Hq Hidx Hd). cbv zeta. simpl.
  split_and!; [|intros pos Hne|done].
  - intros p0. by eapply update_shape.
  - by eapply update_lookup_ne.
Qed.

(** X6. An index outside a bucket that exists, at or beyond its length or
    below minus its length, makes [_execute] raise [IndexError] before
    anything is logged, read from the clock or run: the queue, the log and
    the environment are what they were. *)
Theorem _execute_index_out_of_range s p idx bucket :
  _queue s !! p = Some bucket →
  Z.of_nat (length bucket) ≤ idx ∨ idx < - Z.of_nat (length bucket) →
  _execute time_time check_output p idx s =
    (Raise IndexError,
     Machine (_queue s) (records s) (os s) (calls s ++ [(p, idx)])).
Proof.
  intros Hq Hidx. unfold _execute, list_getitem. unfold_monad. simpl.
  rewrite Hq. simpl.
  assert (norm_index (length bucket) idx = None) as ->; [|done].
  unfold norm_index. repeat case_bool_decide; try done; lia.
Qed.

(** X7. A negative index counts from the end of the bucket: for a bucket of
    length [n] and an index [idx] with [-n <= idx < 0], [_execute] does what
    it does for the index [n + idx]: it returns the same and leaves the same
    queue, log and environment. *)
Theorem _execute_negative_index s p idx bucket :
  _queue s !! p = Some bucket →
  - Z.of_nat (length bucket) ≤ idx < 0 →
  let a := _execute time_time check_output p idx s in
  let b := _execute time_time check_output p
             (Z.of_nat (length bucket) + idx) s in
  a.1 = b.1 ∧ _queue a.2 = _queue b.2 ∧ records a.2 = records b.2 ∧
  os a.2 = os b.2.
Proof.
  intros Hq Hidx a b. unfold a, b.
  set (i := Z.to_nat (Z.of_nat (length bucket) + idx)).
  assert (norm_index (length bucket) idx = Some i) as Hneg.
  { unfold norm_index. rewrite bool_decide_eq_false_2 by lia.
    by rewrite bool_decide_eq_true_2 by lia. }
  assert (norm_index (length bucket) (Z.of_nat (length bucket) + idx)
          = Some i) as Hpos.
  { unfold norm_index. by rewrite !bool_decide_eq_true_2 by lia. }
  assert (is_Some (bucket !! i)) as [d Hd].
  { apply lookup_lt_is_Some. unfold i. lia. }
  rewrite (_execute_found s p idx bucket i d Hq Hneg Hd).
  rewrite (_execute_found s p _ bucket i d Hq Hpos Hd).
  done.
Qed.

(** ** [add_task] and the constructor *)

Lemma add_task_returns s task :
  ∃ ok m,
    (add_task task s).1 = Return ok ∧
    records (add_task task s).2
      = records s ++ [LogRecord (if ok then DEBUG else ERROR) m] ∧
    os (add_task task s).2 = os s ∧
    calls (add_task task s).2 = calls s.
Proof.
  destruct (add_task_cases s task) as [(p & c & _ & _ & ->)|(m & ->)].
  - exists true. eexists. done.
  - exists false. eexists. done.
Qed.

(** X8. For a dictionary whose priority, when it has one, is an integer
    and whose command, when it has one, is a string, [add_task] does not
    raise, whichever of the two keys are missing (the [KeyError] is caught);
    it logs exactly one record, of level DEBUG when it returns [True] and of
    level ERROR when it returns [False]; it runs nothing and does not read
    the clock. *)
Theorem add_task_logs_once s task :
  ∃ ok m,
    (add_task task s).1 = Return ok ∧
    records (add_task task s).2
      = records s ++ [LogRecord (if ok then DEBUG else ERROR) m] ∧
    os (add_task task s).2 = os s ∧
    calls (add_task task s).2 = calls s.
Proof. apply add_task_returns. Qed.

(** What [add_task] does to each bucket. *)
Lemma add_task_bucket s task p :
  _queue (add_task task s).2 !! p =
    match accepted_at p task with
    | Some d => Some (default [] (_queue s !! p) ++ [d])
    | None => _queue s !! p
    end.
Proof.
  unfold accepted_at.
  destruct task as [[p0|] oc]; cbn [task_priority task_command].
  - destruct (decide (1 ≤ p0 ≤ 10)) as [Hp|Hp].
    + destruct oc as [c|].
      * rewrite add_task_accepted by done. simpl.
        case_bool_decide as Hcase.
        -- destruct Hcase as [-> _]. by rewrite lookup_insert_eq.
        -- rewrite lookup_insert_ne; [done|]. intros ->. by apply Hcase.
      * by rewrite add_task_no_command.
    + rewrite add_task_out_of_range by lia. simpl.
      destruct oc; [|done].
      rewrite bool_decide_eq_false_2; [done|]. intros [-> ?]. lia.
  - by rewrite add_task_no_priority.
Qed.

Lemma add_tasks_spec tasks : ∀ s,
  ∃ recs,
    (add_tasks tasks s).1 = Return tt ∧
    records (add_tasks tasks s).2 = records s ++ recs ∧
    length recs = length tasks ∧
    os (add_tasks tasks s).2 = os s ∧
    calls (add_tasks tasks s).2 = calls s ∧
    ∀ p, _queue (add_tasks tasks s).2 !! p =
           match bucket_of p tasks with
           | [] => _queue s !! p
           | b => Some (default [] (_queue s !! p) ++ b)
           end.
Proof.
  induction tasks as [|task rest IH]; intros s.
  - exists []. simpl. by rewrite app_nil_r.
  - simpl. unfold mbind, M_bind, bind.
    pose proof (add_task_bucket s task) as Hbucket.
    destruct (add_task_returns s task) as (ok & m & Hret & Hrec & Hos & Hcalls).
    destruct (add_task task s) as [[ok'|e] s1]; simpl in *; [|done].
    destruct (IH s1) as (recs & Hret' & Hrec' & Hlen & Hos' & Hcalls' & Hq').
    exists (LogRecord (if ok then DEBUG else ERROR) m :: recs).
    split_and!.
    + done.
    + rewrite Hrec', Hrec, <- app_assoc. done.
    + simpl. by rewrite Hlen.
    + congruence.
    + congruence.
    + intros p. rewrite Hq', Hbucket. unfold bucket_of. simpl.
      fold (bucket_of p rest).
      destruct (accepted_at p task) as [d|]; [|done].
      destruct (bucket_of p rest) as [|d' b]; simpl; [done|].
      by rewrite <- app_assoc.
Qed.

(** X9. The constructor keeps the dictionaries [add_task] accepts and
    skips the others without raising: the bucket of a priority holds, in the
    order of the list, one waiting task for each dictionary of the list that
    has a command and that priority, the priority being from 1 to 10, and a
    priority with no such dictionary has no bucket.  One record is logged
    for each dictionary; nothing is executed. *)
Theorem constructor_buckets tasks (w : world) p :
  _queue (__init__ tasks w) !! p =
    (if decide (bucket_of p tasks = []) then None
     else Some (bucket_of p tasks)) ∧
  length (records (__init__ tasks w)) = length tasks ∧
  os (__init__ tasks w) = w ∧
  calls (__init__ tasks w) = [].
Proof.
  unfold __init__.
  destruct (add_tasks_spec tasks (Machine ∅ [] w []))
    as (recs & _ & Hrec & Hlen & Hos & Hcalls & Hq).
  split_and!.
  - rewrite Hq. simpl. rewrite lookup_empty. simpl.
    by destruct (bucket_of p tasks).
  - by rewrite Hrec.
  - done.
  - done.
Qed.

(** ** What the public methods keep *)

Lemma add_tasks_perform_all tasks s :
  (add_tasks tasks s).2 =
  perform_all time_time check_output (AddTask <$> tasks) s.
Proof.
  revert s. induction tasks as [|task rest IH]; intros s; [done|].
  simpl. unfold mbind, M_bind, bind.
  destruct (add_task_returns s task) as (ok & m & Hret & _).
  destruct (add_task task s) as [[ok'|e] s1]; simpl in *; [|done].
  apply IH.
Qed.

Lemma perform_all_app ops1 ops2 s :
  perform_all time_time check_output (ops1 ++ ops2) s =
  perform_all time_time check_output ops2
    (perform_all time_time check_output ops1 s).
Proof. unfold perform_all. apply foldl_app. Qed.

(** A property of the queue that the empty queue has and every operation
    keeps holds after any operations on a new object. *)
Lemma reachable_ind (P : gmap Z (list task_data) → Prop) :
  P ∅ →
  (∀ o s, P (_queue s) → P (_queue (perform time_time check_output o s))) →
  ∀ tasks (w : world) ops,
    P (_queue (perform_all time_time check_output ops (__init__ tasks w))).
Proof.
  intros Hempty Hstep tasks w ops.
  unfold __init__. rewrite add_tasks_perform_all, <- perform_all_app.
  generalize (((AddTask <$> tasks) ++ ops)). intros l.
  assert (∀ s, P (_queue s) →
               P (_queue (perform_all time_time check_output l s))) as Hall.
  { induction l as [|o l IH]; intros s Hs; [done|].
    rewrite perform_all_cons. by apply IH, Hstep. }
  by apply Hall.
Qed.

Lemma pass_task_back q q1 pos d1 :
  advanced (positions (sorted_reverse q)) q q1 →
  lookup_task q1 pos = Some d1 →
  ∃ d, lookup_task q pos = Some d ∧
       ((state d ≠ STATE_WAITING ∧ d1 = d) ∨
        (state d = STATE_WAITING ∧
         ∃ start stop r, d1 = executed d start stop r)).
Proof.
  intros Hadv Hd1.
  pose proof Hd1 as (b1 & Hb1 & Hi1)%lookup_task_Some.
  destruct Hadv as (Hshape & Hrest).
  pose proof (Hshape pos.1) as Hlen. rewrite Hb1 in Hlen. simpl in Hlen.
  destruct (q !! pos.1) as [b|] eqn:Hb; [|done].
  simpl in Hlen. injection Hlen as Hlen.
  assert (is_Some (b !! pos.2)) as [d Hd].
  { apply lookup_lt_is_Some. rewrite <- Hlen. by eapply lookup_lt_Some. }
  assert (lookup_task q pos = Some d) as Hold
    by (apply lookup_task_Some; eauto).
  exists d. split; [done|].
  destruct (pass_task q q1 pos d (conj Hshape Hrest) Hold) as [Hsame Hex].
  destruct (decide (state d = STATE_WAITING)) as [Hst|Hst].
  - right. split; [done|].
    destruct (Hex Hst) as (start & stop & r & Hd' & _).
    exists start, stop, r. congruence.
  - left. split; [done|]. specialize (Hsame Hst). congruence.
Qed.

Lemma pass_idle q q1 :
  advanced (positions (sorted_reverse q)) q q1 → ∀ pos, ¬ waiting q1 pos.
Proof.
  intros Hadv pos (d1 & Hd1 & Hst1)%waiting_Some.
  destruct (pass_task_back q q1 pos d1 Hadv Hd1)
    as (d & _ & [[Hst ->]|(_ & start & stop & r & ->)]); [done|].
  by apply executed_not_waiting in Hst1.
Qed.

Lemma add_task_back s task pos d' :
  lookup_task (_queue (add_task task s).2) pos = Some d' →
  lookup_task (_queue s) pos = Some d' ∨
  (accepted_at pos.1 task = Some d' ∧
   pos.2 = length (default [] (_queue s !! pos.1))).
Proof.
  intros (b' & Hb' & Hi)%lookup_task_Some.
  rewrite add_task_bucket in Hb'.
  destruct (accepted_at pos.1 task) as [d|].
  - injection Hb' as <-.
    apply lookup_app_Some in Hi as [Hi|[Hlen Hi]].
    + left. apply lookup_task_Some.
      destruct (_queue s !! pos.1) as [b|]; simpl in *; [eauto|].
      by rewrite lookup_nil in Hi.
    + right.
      destruct (pos.2 - length (default [] (_queue s !! pos.1)))%nat
        as [|k] eqn:Hk; simpl in Hi; [|by rewrite lookup_nil in Hi].
      injection Hi as ->. split; [done|lia].
  - left. apply lookup_task_Some. eauto.
Qed.

Lemma accepted_at_new p task d :
  accepted_at p task = Some d →
  1 ≤ p ≤ 10 ∧ ∃ c, d = new_task c ∧ task_command task = Some c ∧
                     task_priority task = Some p.
Proof.
  unfold accepted_at.
  destruct (task_priority task) as [p'|]; [|done].
  destruct (task_command task) as [c|]; [|done].
  case_bool_decide as Hcase; [|done]. destruct Hcase as [-> Hp].
  intros [= <-]. eauto.
Qed.

(** X10. On an object made by the constructor and used through [add_task],
    [run] and [clear_queue] only, every bucket is at a priority from 1 to 10
    and holds at least one task: there are never more than these ten
    buckets, and never an empty one. *)
Theorem public_buckets_in_range tasks (w : world) ops :
  buckets_in_range
    (_queue (perform_all time_time check_output ops (__init__ tasks w))).
Proof.
  apply (reachable_ind buckets_in_range).
  - intros p bucket Hp. by rewrite lookup_empty in Hp.
  - intros o s Hinv p bucket' Hp. destruct o as [task|auto_clear|]; simpl in Hp.
    + rewrite add_task_bucket in Hp.
      destruct (accepted_at p task) as [d|] eqn:Hacc; [|by eapply Hinv].
      apply accepted_at_new in Hacc as [Hrange _].
      injection Hp as <-. split; [done|].
      intros Hnil. by apply app_eq_nil in Hnil as [_ ?].
    + destruct (run_spec s) as (q1 & Hadv & Hrun).
      destruct (Hrun auto_clear) as (_ & Hq & _). simpl in Hq.
      rewrite Hq in Hp. destruct auto_clear; [by rewrite lookup_empty in Hp|].
      destruct Hadv as (Hshape & _). specialize (Hshape p).
      rewrite Hp in Hshape. simpl in Hshape.
      destruct (_queue s !! p) as [bucket|] eqn:Hold; [|done].
      simpl in Hshape. injection Hshape as Hlen.
      destruct (Hinv p bucket Hold) as [Hrange Hne]. split; [done|].
      intros ->. destruct bucket; [done|]. simpl in Hlen. lia.
    + by rewrite lookup_empty in Hp.
Qed.

(** X11. On such an object every task is consistent: while it is waiting
    its output is [None] and its elapsed time is 0, and once it is in state
    SUCCESS or ERROR it has an output. *)
Theorem public_tasks_consistent tasks (w : world) ops pos d :
  lookup_task
    (_queue (perform_all time_time check_output ops (__init__ tasks w))) pos
    = Some d →
  consistent d.
Proof.
  revert pos d.
  apply (reachable_ind (λ q, ∀ pos d, lookup_task q pos = Some d →
                                      consistent d)).
  - intros pos d Hd. unfold lookup_task in Hd.
    by rewrite lookup_empty in Hd.
  - intros o s Hinv pos d' Hd'.
    destruct o as [task|auto_clear|]; simpl in Hd'.
    + apply add_task_back in Hd' as [Hold|[Hacc _]]; [by eapply Hinv|].
      by apply accepted_at_new in Hacc as (_ & c & -> & _).
    + destruct (run_spec s) as (q1 & Hadv & Hrun).
      destruct (Hrun auto_clear) as (_ & Hq & _). simpl in Hq.
      rewrite Hq in Hd'. destruct auto_clear.
      { unfold lookup_task in Hd'. by rewrite lookup_empty in Hd'. }
      destruct (pass_task_back _ _ _ _ Hadv Hd')
        as (d & Hd & [[_ ->]|(_ & start & stop & r & ->)]).
      * by eapply Hinv.
      * unfold consistent. simpl. by destruct (succeeded r).
    + unfold lookup_task in Hd'. by rewrite lookup_empty in Hd'.
Qed.

(** X12. A task added after a pass is the only one the next pass executes:
    after [run(False)], an accepted [add_task] and a second [run], the
    second [run] calls [_execute] once, for the new task at the end of its
    bucket, and returns [True] exactly if that task succeeds. *)
Theorem run_add_run s p c auto_clear :
  1 ≤ p ≤ 10 →
  let s1 := (run time_time check_output false s).2 in
  let s2 := (add_task (TaskDict (Some p) (Some c)) s1).2 in
  let new_pos := (p, length (default [] (_queue s1 !! p))) in
  lookup_task (_queue s2) new_pos = Some (new_task c) ∧
  calls (run time_time check_output auto_clear s2).2
    = calls s1 ++ [call_of new_pos] ∧
  (run time_time check_output auto_clear s2).1
    = Return (success_at (_queue (run time_time check_output false s2).2)
                new_pos).
Proof.
  intros Hp s1 s2 new_pos.
  destruct (run_spec s) as (q1 & Hadv & Hrun).
  destruct (Hrun false) as (_ & Hq1 & _). simpl in Hq1. fold s1 in Hq1.
  subst q1. pose proof (pass_idle _ _ Hadv) as Hidle.
  assert ((add_task (TaskDict (Some p) (Some c)) s1).1 = Return true) as Hok
    by (by rewrite add_task_accepted).
  destruct (add_task_positions s1 _ Hok)
    as (p' & c' & [= <- <-] & _ & _ & Hnew).
  fold s2 new_pos in Hnew.
  assert (calls s2 = calls s1) as Hcalls2
    by (unfold s2; by rewrite add_task_accepted).
  assert (run_order (_queue s2) = [new_pos]) as Horder.
  { assert (∀ pos, pos ∈ run_order (_queue s2) ↔ pos = new_pos) as Hel.
    { intros pos. rewrite elem_of_run_order. split.
      - intros (d & Hd & Hst)%waiting_Some.
        apply add_task_back in Hd as [Hold|[Hacc Hlen]].
        + exfalso. apply (Hidle pos), waiting_Some. eauto.
        + apply accepted_at_new in Hacc as (_ & _ & _ & _ & [= Heq]).
          destruct pos as [p0 i0]. simpl in *. subst. done.
      - intros ->. apply waiting_Some. eauto. }
    pose proof (NoDup_run_order (_queue s2)) as Hnd.
    destruct (run_order (_queue s2)) as [|x l].
    - exfalso. by apply (not_elem_of_nil new_pos), Hel.
    - assert (x = new_pos) as -> by (apply Hel; by left).
      destruct l as [|y l]; [done|].
      apply NoDup_cons in Hnd as [Hx _].
      exfalso. apply Hx. assert (y = new_pos) as ->; [|by left].
      apply Hel. right. by left. }
  destruct (run_spec s2) as (q2 & Hadv2 & Hrun2).
  destruct (Hrun2 false) as (_ & Hq2 & _). simpl in Hq2.
  destruct (Hrun2 auto_clear) as (Hret & _ & Hcalls & _).
  rewrite Horder in *. simpl in *.
  split_and!; [done|by rewrite Hcalls, Hcalls2|].
  rewrite Hret, Hq2. unfold all. simpl. by rewrite andb_true_r.
Qed.

(** X13. [_execute] does not look at the state of the task: called on a
    task that has been executed already, it runs the command again and
    overwrites the state, the output and the elapsed time, exactly as it
    would for the same command still waiting.  Only [run] skips tasks that
    are not waiting. *)
Theorem _execute_ignores_state s p idx bucket i d :
  _queue s !! p = Some bucket →
  norm_index (length bucket) idx = Some i →
  bucket !! i = Some d →
  let s0 := Machine (<[p := <[i := new_task (command d)]> bucket]> (_queue s))
                    (records s) (os s) (calls s) in
  _execute time_time check_output p idx s =
  _execute time_time check_output p idx s0.
Proof.
  intros Hq Hidx Hd s0.
  rewrite (_execute_found s p idx bucket i d Hq Hidx Hd).
  assert (i < length bucket)%nat as Hlt by (by eapply lookup_lt_Some).
  rewrite (_execute_found s0 p idx (<[i := new_task (command d)]> bucket) i
             (new_task (command d))).
  - cbv zeta. simpl. f_equal. f_equal.
    by rewrite insert_insert_eq, list_insert_insert_eq.
  - apply lookup_insert_eq.
  - by rewrite length_insert.
  - by apply list_lookup_insert_eq.
Qed.

End Verification.

(** * The claims on the stub environment *)

Lemma add_task_priority_range_witness :
  ((add_task (TaskDict (Some 5) (Some "dir")) fresh).1 = Return true ∧
   _queue (add_task (TaskDict (Some 5) (Some "dir")) fresh).2 =
     <[5 := default [] (_queue fresh !! 5) ++
               [TaskData "dir" STATE_WAITING None 0%Q]]> (_queue fresh)) ∧
  (∀ oc, (add_task (TaskDict (Some 0) oc) fresh).1 = Return false ∧
         _queue (add_task (TaskDict (Some 0) oc) fresh).2 = _queue fresh ∧
         os (add_task (TaskDict (Some 0) oc) fresh).2 = os fresh ∧
         calls (add_task (TaskDict (Some 0) oc) fresh).2 = calls fresh) ∧
  (∀ oc, (add_task (TaskDict (Some 11) oc) fresh).1 = Return false ∧
         _queue (add_task (TaskDict (Some 11) oc) fresh).2 = _queue fresh ∧
         os (add_task (TaskDict (Some 11) oc) fresh).2 = os fresh ∧
         calls (add_task (TaskDict (Some 11) oc) fresh).2 = calls fresh).
Proof.
  split; [|split].
  - apply (proj1 (add_task_priority_range fresh 5 "dir")). lia.
  - apply (proj2 (add_task_priority_range fresh 0 "dir")). lia.
  - apply (proj2 (add_task_priority_range fresh 11 "dir")). lia.
Defined.

(** C6 as it is written fails: the empty command with priority 5 is
    accepted into the new queue, as a waiting task at position 0 of
    bucket 5. *)
Lemma add_task_empty_command_accepted :
  (add_task (TaskDict (Some 5) (Some "")) fresh).1 = Return true ∧
  lookup_task (_queue (add_task (TaskDict (Some 5) (Some "")) fresh).2)
              (5, 0%nat) = Some (TaskData "" STATE_WAITING None 0%Q) ∧
  ¬ ((add_task (TaskDict (Some 5) (Some "")) fresh).1 = Return false ∧
     _queue (add_task (TaskDict (Some 5) (Some "")) fresh).2 = _queue fresh).
Proof.
  split_and!; [by vm_compute|by vm_compute|].
  intros [Hret _]. vm_compute in Hret. discriminate.
Qed.

Lemma add_task_empty_command_witness :
  (add_task (TaskDict (Some 5) (Some "")) fresh).1 = Return true ∧
  _queue (add_task (TaskDict (Some 5) (Some "")) fresh).2 =
    <[5 := default [] (_queue fresh !! 5) ++
              [TaskData "" STATE_WAITING None 0%Q]]> (_queue fresh).
Proof.
  apply (proj1 (add_task_empty_command fresh) 5). lia.
Defined.

Lemma add_task_missing_key_witness :
  (add_task (TaskDict (Some 5) None) fresh).1 = Return false ∧
  _queue (add_task (TaskDict (Some 5) None) fresh).2 = _queue fresh ∧
  (∃ m, records (add_task (TaskDict (Some 5) None) fresh).2 =
          records fresh ++ [LogRecord ERROR m]) ∧
  os (add_task (TaskDict (Some 5) None) fresh).2 = os fresh ∧
  calls (add_task (TaskDict (Some 5) None) fresh).2 = calls fresh.
Proof.
  apply (add_task_missing_key fresh (TaskDict (Some 5) None)).
  left. reflexivity.
Defined.

(** C4 as it is written fails: with a clock that reads 5 before the
    command and 3 after it, [_execute] succeeds and records a negative
    elapsed time. *)
Lemma _execute_elapsed_negative :
  (_execute backward_clock stub_runner 5 0 (one_task "emit success")).1
    = Return true ∧
  ∃ d',
    lookup_task
      (_queue (_execute backward_clock stub_runner 5 0
                 (one_task "emit success")).2) (5, 0%nat) = Some d' ∧
    state d' = STATE_SUCCESS ∧
    log d' = Some "OK" ∧
    time_processing d' = (inject_Z 3 - inject_Z 5)%Q ∧
    (time_processing d' < 0)%Q ∧
    ¬ (0 <= time_processing d')%Q.
Proof.
  split; [by vm_compute|].
  exists (TaskData "emit success" STATE_SUCCESS (Some "OK")
                   (inject_Z 3 - inject_Z 5)%Q).
  split_and!; [by vm_compute|done|done|done|done|].
  by apply Qlt_not_le.
Qed.

Lemma _execute_outcome_witness :
  ∃ d',
    lookup_task
      (_queue (_execute stub_clock stub_runner 5 0
                 (one_task "emit failure")).2) (5, 0%nat) = Some d' ∧
    command d' = "emit failure" ∧
    (0 <= time_processing d')%Q ∧
    (_execute stub_clock stub_runner 5 0 (one_task "emit failure")).1
      = Return false ∧
    state d' = STATE_ERROR ∧ log d' = Some "boom".
Proof.
  destruct (_execute_outcome stub_clock stub_runner (one_task "emit failure")
              5 0 [new_task "emit failure"] 0 (new_task "emit failure"))
    as (d' & Hd' & Hcmd & _ & Hclock & _ & Hfail).
  - by vm_compute.
  - by vm_compute.
  - reflexivity.
  - exists d'. split; [exact Hd'|]. split; [exact Hcmd|].
    split; [|exact Hfail].
    apply Hclock. by vm_compute.
Defined.

Lemma _execute_missing_bucket_witness :
  (_execute stub_clock stub_runner 7 0 fresh).1 = Raise IndexError ∧
  _queue (_execute stub_clock stub_runner 7 0 fresh).2
    = <[7 := []]> (_queue fresh) ∧
  _queue (_execute stub_clock stub_runner 7 0 fresh).2 !! 7 = Some [] ∧
  _queue (_execute stub_clock stub_runner 7 0 fresh).2 ≠ _queue fresh.
Proof.
  apply (_execute_missing_bucket stub_clock stub_runner fresh 7 0).
  by vm_compute.
Defined.

Lemma run_execution_order_witness :
  (∃ p c,
     TaskDict (Some 5) (Some "dir") = TaskDict (Some p) (Some c) ∧
     (∀ pos d,
        lookup_task (_queue (one_task "emit success")) pos = Some d →
        lookup_task
          (_queue (add_task (TaskDict (Some 5) (Some "dir"))
                     (one_task "emit success")).2) pos = Some d) ∧
     lookup_task
       (_queue (add_task (TaskDict (Some 5) (Some "dir"))
                  (one_task "emit success")).2)
       (p, length (default [] (_queue (one_task "emit success") !! p)))
       = Some (TaskData c STATE_WAITING None 0%Q)) ∧
  calls (run stub_clock stub_runner false three_tasks).2
    = [(10, 0); (1, 0); (1, 1)].
Proof.
  split.
  - apply (proj1 (proj2 (run_execution_order stub_clock stub_runner))
             (one_task "emit success") (TaskDict (Some 5) (Some "dir"))).
    by vm_compute.
  - apply (proj2 (proj2 (run_execution_order stub_clock stub_runner))
             0%nat "emit success" "emit failure" "dir" false).
Defined.

Lemma run_result_witness :
  (run stub_clock stub_runner false three_tasks).1 = Return false ∧
  calls (run stub_clock stub_runner false three_tasks).2
    = calls three_tasks ++
      (call_of <$> run_order (_queue three_tasks)).
Proof.
  destruct (run_result stub_clock stub_runner three_tasks false)
    as (results & s1 & _ & _ & _ & _ & Hcalls & Hret & _ & _ & Hiff & _).
  split; [|exact Hcalls].
  rewrite Hret. destruct (all results); [|reflexivity].
  destruct (proj1 Hiff eq_refl (10, 0%nat) (new_task "emit failure"))
    as (start & stop & r & Hd' & Hsucc).
  - by vm_compute.
  - reflexivity.
  - exfalso.
    assert (state <$> lookup_task
              (_queue (run stub_clock stub_runner false three_tasks).2)
              (10, 0%nat) = Some STATE_ERROR) as Hstate by (by vm_compute).
    rewrite Hd' in Hstate. simpl in Hstate. rewrite Hsucc in Hstate.
    discriminate Hstate.
Defined.

Lemma run_again_witness :
  let s1 := (run stub_clock stub_runner false three_tasks).2 in
  (run stub_clock stub_runner false s1).1 = Return true ∧
  calls (run stub_clock stub_runner false s1).2 = calls s1 ∧
  _queue (run stub_clock stub_runner false s1).2 = _queue s1.
Proof.
  intros s1.
  destruct (proj2 (proj2 (proj2 (run_again stub_clock stub_runner three_tasks)))
              false) as (Hret & Hcalls & _ & Hq).
  split; [exact Hret|]. split; [exact Hcalls|]. exact (Hq eq_refl).
Defined.

Lemma task_lifecycle_witness :
  let ops := [AddTask (TaskDict (Some 5) (Some "dir")); Run false; Run false] in
  let s := one_task "emit failure" in
  let d := TaskData "emit failure" STATE_WAITING None 0%Q in
  ∃ d' new,
    lookup_task (_queue (perform_all stub_clock stub_runner ops s)) (5, 0%nat)
      = Some d' ∧
    command d' = command d ∧
    calls (perform_all stub_clock stub_runner ops s) = calls s ++ new ∧
    ((d' = d ∧ call_of (5, 0%nat) ∉ new) ∨
     (state d = STATE_WAITING ∧
      (state d' = STATE_SUCCESS ∨ state d' = STATE_ERROR) ∧
      (∃ start stop r, d' = executed d start stop r) ∧
      once (call_of (5, 0%nat)) new)) ∧
    (state d ≠ STATE_WAITING → d' = d ∧ call_of (5, 0%nat) ∉ new).
Proof.
  intros ops s d.
  apply (proj1 (proj2 (task_lifecycle stub_clock stub_runner))
           ops s (5, 0%nat) d).
  - repeat constructor.
  - by vm_compute.
Defined.

(** The two scenarios of the specification with one task. *)
Example scenario_success :
  let r := run stub_clock stub_runner false (one_task "emit success") in
  r.1 = Return true ∧
  state <$> lookup_task (_queue r.2) (5, 0%nat) = Some STATE_SUCCESS ∧
  log <$> lookup_task (_queue r.2) (5, 0%nat) = Some (Some "OK").
Proof. by vm_compute. Qed.

Example scenario_failure :
  let r := run stub_clock stub_runner false (one_task "emit failure") in
  r.1 = Return false ∧
  state <$> lookup_task (_queue r.2) (5, 0%nat) = Some STATE_ERROR ∧
  log <$> lookup_task (_queue r.2) (5, 0%nat) = Some (Some "boom").
Proof. by vm_compute. Qed.

(** * The further properties on the stub environment *)

Lemma run_nothing_waiting_witness :
  run stub_clock stub_runner true fresh =
    (Return true,
     Machine ∅
             (records fresh ++
                [LogRecord INFO MsgStarting;
                 LogRecord INFO
                   (MsgProcessed 0 ((stub_clock (stub_clock (os fresh)).2).1 -
                                    (stub_clock (os fresh)).1)%Q)] ++
                [LogRecord DEBUG MsgClear])
             (stub_clock (stub_clock (os fresh)).2).2 (calls fresh)).
Proof.
  apply (run_nothing_waiting stub_clock stub_runner fresh true).
  intros pos d Hd. unfold lookup_task in Hd.
  change (_queue fresh) with (∅ : gmap Z (list task_data)) in Hd.
  rewrite lookup_empty in Hd. discriminate Hd.
Defined.

Lemma _execute_frame_witness :
  let s' := (_execute stub_clock stub_runner 1 (-1) three_tasks).2 in
  (∀ p0, length <$> _queue s' !! p0 = length <$> _queue three_tasks !! p0) ∧
  (∀ pos, pos ≠ (1, 1%nat) →
          lookup_task (_queue s') pos = lookup_task (_queue three_tasks) pos) ∧
  calls s' = calls three_tasks ++ [(1, -1)].
Proof.
  apply (_execute_frame stub_clock stub_runner three_tasks 1 (-1)
           [new_task "emit success"; new_task "dir"] 1 (new_task "dir")).
  - by vm_compute.
  - by vm_compute.
  - reflexivity.
Defined.

Lemma _execute_index_out_of_range_witness :
  _execute stub_clock stub_runner 5 1 (one_task "dir") =
    (Raise IndexError,
     Machine (_queue (one_task "dir")) (records (one_task "dir"))
             (os (one_task "dir")) (calls (one_task "dir") ++ [(5, 1)])).
Proof.
  apply (_execute_index_out_of_range stub_clock stub_runner (one_task "dir")
           5 1 [new_task "dir"]).
  - by vm_compute.
  - left. simpl. lia.
Defined.

Lemma _execute_negative_index_witness :
  let a := _execute stub_clock stub_runner 1 (-1) three_tasks in
  let b := _execute stub_clock stub_runner 1
             (Z.of_nat (length [new_task "emit success"; new_task "dir"])
              + -1) three_tasks in
  a.1 = b.1 ∧ _queue a.2 = _queue b.2 ∧ records a.2 = records b.2 ∧
  os a.2 = os b.2.
Proof.
  apply (_execute_negative_index stub_clock stub_runner three_tasks 1 (-1)
           [new_task "emit success"; new_task "dir"]).
  - by vm_compute.
  - simpl. lia.
Defined.

Lemma public_tasks_consistent_witness :
  consistent (executed (new_task "emit failure") (inject_Z 1) (inject_Z 2)
                       (CalledProcessError "boom")).
Proof.
  apply (public_tasks_consistent stub_clock stub_runner
           [TaskDict (Some 5) (Some "emit failure")] 0%nat [Run false]
           (5, 0%nat)).
  by vm_compute.
Defined.

Lemma run_add_run_witness :
  let s1 := (run stub_clock stub_runner false three_tasks).2 in
  let s2 := (add_task (TaskDict (Some 1) (Some "dir")) s1).2 in
  let new_pos := (1, length (default [] (_queue s1 !! 1))) in
  lookup_task (_queue s2) new_pos = Some (new_task "dir") ∧
  calls (run stub_clock stub_runner false s2).2
    = calls s1 ++ [call_of new_pos] ∧
  (run stub_clock stub_runner false s2).1
    = Return (success_at (_queue (run stub_clock stub_runner false s2).2)
                new_pos).
Proof.
  apply (run_add_run stub_clock stub_runner three_tasks 1 "dir" false). lia.
Defined.

Lemma _execute_ignores_state_witness :
  let s := (run stub_clock stub_runner false (one_task "emit failure")).2 in
  let d := executed (new_task "emit failure") (inject_Z 1) (inject_Z 2)
                    (CalledProcessError "boom") in
  let s0 := Machine (<[5 := <[0%nat := new_task (command d)]> [d]]> (_queue s))
                    (records s) (os s) (calls s) in
  _execute stub_clock stub_runner 5 0 s =
  _execute stub_clock stub_runner 5 0 s0.
Proof.
  intros s d.
  apply (_execute_ignores_state stub_clock stub_runner s 5 0 [d] 0%nat d).
  - by vm_compute.
  - by vm_compute.
  - reflexivity.
Defined.
